(** * The [mc] scanner module of zgrab2: [readVarInt] and [Scan]

    A shallow embedding of [modules/mc/scanner.go].  The connection is an
    explicit state threaded through every call; what the peer does is a
    script of timed events held by that state, so that the blocking reads,
    the five second timer and the short read on end-of-stream can all be
    evaluated and reasoned about. *)

From Stdlib Require Import ZArith List String Ascii Bool Lia.
From Stdlib Require Import Strings.Byte.
Import ListNotations.
Open Scope Z_scope.

(** ** Bytes and Go's [int] *)

Definition byte := Byte.byte.

(** The numeric value of a byte, as the bit operations of the source see it. *)
Definition byte_val (b : byte) : Z := Z.of_N (Byte.to_N b).

(** Go's [int] on the 64 bit targets the scanner is built for: two's
    complement wrap-around of a mathematical integer. *)
Definition int_wrap (z : Z) : Z := (z + 2 ^ 63) mod 2 ^ 64 - 2 ^ 63.

(** ** Errors and scan statuses *)

(** Modelled from the spec: the [zgrab2.ScanStatus] codes of the framework,
    which are declared outside the module's source.  [SCAN_SUCCESS] and
    [SCAN_PROTOCOL_ERROR] are the two the module names; the others are the
    coarse transport statuses of the spec (connection-refused, timeout,
    unknown). *)
Inductive ScanStatus : Set :=
| SCAN_SUCCESS
| SCAN_CONNECTION_REFUSED
| SCAN_IO_TIMEOUT
| SCAN_PROTOCOL_ERROR
| SCAN_UNKNOWN_ERROR.

(** Go [error] values that can reach the scanner: the [io.EOF] sentinel, the
    plain errors made by [errors.New] and [fmt.Errorf], the [net.Error]s of
    the stream (which know whether they are timeouts) and the framework's
    [ScanError], which carries its status. *)
Inductive error : Set :=
| io_EOF
| errorString (msg : string)
| netError (isTimeout : bool) (msg : string)
| scanError (status : ScanStatus) (msg : string).

Definition is_EOF (e : error) : bool :=
  match e with io_EOF => true | _ => false end.

(** Modelled from the spec: [zgrab2.TryGetScanStatus], the framework's
    status/error classification helper, whose code is outside the module's
    source.  It maps a transport-level error to a coarse scan status
    (connection-refused, timeout, unknown): an error that carries a status
    keeps it, a timeout of the stream and an unexpected end-of-stream are
    I/O timeouts, and an error it does not recognise is unknown. *)
Definition TryGetScanStatus (err : error) : ScanStatus :=
  match err with
  | io_EOF => SCAN_IO_TIMEOUT
  | scanError status _ => status
  | netError true _ => SCAN_IO_TIMEOUT
  | netError false _ => SCAN_UNKNOWN_ERROR
  | errorString _ => SCAN_UNKNOWN_ERROR
  end.

(** ** The connection *)

(** What the peer does next.  [Recv b bs] is a segment of at least one byte;
    [Err e] makes the pending read fail with [e] ([io_EOF] when the peer
    closes).  On a [net.Conn] a read into a non-empty buffer returns at
    least one byte or an error, and no byte together with an error. *)
Inductive event : Set :=
| Recv (b : byte) (bs : list byte)
| Err (e : error).

(** The state of the connection.  [now] is the wall clock in milliseconds.
    Each entry of [incoming] is an event with the time the read that meets
    it has to wait for it; when [incoming] is empty the peer stays silent
    for ever.  [wresults] gives the outcome of the coming writes (none left:
    the write succeeds) and [sent] records what was written. *)
Record conn : Set := mkConn {
  now : nat;
  incoming : list (nat * event);
  wresults : list (option error);
  sent : list (list byte);
  closed : bool
}.

(** The result of running a piece of the scanner: it returns, or it blocks
    for ever in a read, or the loop bound given to [readLoop] was too small
    (which [Scan] never lets happen, see [Scan_conn_fuel]). *)
Inductive outcome (A : Type) : Type :=
| Returned (a : A)
| Blocked
| OutOfFuel.
Arguments Returned {A} a.
Arguments Blocked {A}.
Arguments OutOfFuel {A}.

Definition obind {A B : Type} (o : outcome A) (k : A -> outcome B) : outcome B :=
  match o with
  | Returned a => k a
  | Blocked => Blocked
  | OutOfFuel => OutOfFuel
  end.

Notation "'do' p <- o ; k" := (obind o (fun p => k))
  (at level 10, p pattern, o at level 100, k at level 200).

(** What [conn.Read] hands back: the byte count, the bytes stored at the
    front of the buffer, and the error. *)
Definition read_result : Set := (Z * list byte * option error)%type.

(** [conn.Read(p)] with [len(p) = cap]: blocks until the next event, then
    stores as many bytes of the segment as fit; the rest of the segment
    stays in the stream and is available at once. *)
Definition Read (c : conn) (cap : nat) : outcome (read_result * conn) :=
  match incoming c with
  | [] => Blocked
  | (wait, Err e) :: rest =>
      Returned ((0, [], Some e),
                mkConn (now c + wait) rest (wresults c) (sent c) (closed c))
  | (wait, Recv b bs) :: rest =>
      let got := firstn cap (b :: bs) in
      let rest' := match skipn cap (b :: bs) with
                   | [] => rest
                   | b' :: bs' => (0%nat, Recv b' bs') :: rest
                   end in
      Returned ((Z.of_nat (List.length got), got, None),
                mkConn (now c + wait) rest' (wresults c) (sent c) (closed c))
  end.

(** [conn.Write(p)]. *)
Definition Write (c : conn) (p : list byte) : option error * conn :=
  match wresults c with
  | [] => (None, mkConn (now c) (incoming c) [] (sent c ++ [p]) (closed c))
  | None :: ws => (None, mkConn (now c) (incoming c) ws (sent c ++ [p]) (closed c))
  | Some e :: ws => (Some e, mkConn (now c) (incoming c) ws (sent c) (closed c))
  end.

(** [conn.Close()]. *)
Definition Close (c : conn) : conn :=
  mkConn (now c) (incoming c) (wresults c) (sent c) true.

(** ** readVarInt (scanner.go, lines 118-135) *)

Definition maxBytes : nat := 5.

Definition errVarintTooLong : error := errorString "varint too long".

(** The [for] loop of [readVarInt]; [remaining] is [maxBytes - i].  The one
    byte buffer [b] starts zeroed, so [b[0]] is the byte read, or zero. *)
Fixpoint readVarInt_loop (remaining : nat) (result shift : Z) (c : conn)
  : outcome ((Z * option error) * conn) :=
  match remaining with
  | O => Returned ((0, Some errVarintTooLong), c)
  | S remaining' =>
      do (_, b, err, c1) <- Read c 1;
      match err with
      | Some e => Returned ((0, Some e), c1)
      | None =>
          let b0 := byte_val (nth 0 b x00) in
          let result' := Z.lor result (int_wrap (Z.shiftl (Z.land b0 0x7F) shift)) in
          if Z.land b0 0x80 =? 0 then Returned ((result', None), c1)
          else readVarInt_loop remaining' result' (shift + 7) c1
      end
  end.

Definition readVarInt (c : conn) : outcome ((Z * option error) * conn) :=
  readVarInt_loop maxBytes 0 0 c.

(** ** Output encoding *)

(** Go's [hex.EncodeToString]: two characters of [hextable] per byte, the
    high nibble first. *)
Definition hextable : string := "0123456789abcdef".

Definition hexdigit (n : Z) : ascii :=
  match String.get (Z.to_nat n) hextable with
  | Some a => a
  | None => "0"%char
  end.

Fixpoint EncodeToString (src : list byte) : string :=
  match src with
  | [] => EmptyString
  | v :: src' =>
      String (hexdigit (Z.shiftr (byte_val v) 4))
        (String (hexdigit (Z.land (byte_val v) 0x0f)) (EncodeToString src'))
  end.

(** [Results] (scanner.go, lines 38-41). *)
Record Results : Set := mkResults {
  Banner1 : string;
  Banner2 : string
}.

(** The members [encoding/json] writes for a [Results]: both fields are
    tagged [omitempty], so an empty string is left out. *)
Definition Results_json (r : Results) : list (string * string) :=
  (if String.eqb (Banner1 r) "" then [] else [("banner1"%string, Banner1 r)]) ++
  (if String.eqb (Banner2 r) "" then [] else [("banner2"%string, Banner2 r)]).

(** ** Scan (scanner.go, lines 137-230) *)

(** The scanner after [Init]: the two unquoted probes. *)
Record Scanner : Set := mkScanner {
  probe1 : list byte;
  probe2 : list byte
}.

(** A target, seen through the one thing [Scan] asks of it: what
    [target.Open] returns. *)
Record ScanTarget : Set := mkTarget {
  Open : conn + error
}.

(** What [Scan] returns: status, result ([None] is [nil]) and error. *)
Definition scan_return : Set := (ScanStatus * option Results * option error)%type.

Definition errBannerTooLong : error := errorString "banner too long".
Definition errZeroNegative : error := errorString "zero/negative banner length".
Definition errLengthMismatch : error := errorString "banner length mismatch".
Definition errReadTimeout : error := errorString "read timeout".

(** Milliseconds in [time.Second]. *)
Definition Second : nat := 1000.

(** [time.After(d)]: the instant from which the timer's channel is ready. *)
Definition time_After (c : conn) (d : nat) : nat := (now c + d)%nat.

(** [make([]byte, length)]. *)
Definition make_bytes (length : Z) : list byte := repeat x00 (Z.to_nat length).

(** The effect on [data] of a read into [data[totalRead:]] that stored [got]. *)
Definition store_at (data : list byte) (totalRead : Z) (got : list byte) : list byte :=
  firstn (Z.to_nat totalRead) data ++ got ++
  skipn (Z.to_nat totalRead + List.length got) data.

(** How a read loop is left: by its condition or its [break], with the
    buffer and the count, or by a [return] of [Scan]. *)
Inductive loop_exit : Set :=
| LoopDone (data : list byte) (totalRead : Z)
| LoopReturn (r : scan_return).

(** The loops [readLoop] and [readLoop2] (lines 172-187 and 207-222), which
    differ only in the buffer's name.  The [select] takes the timer's case
    exactly when its channel is ready, that is when the instant [timeout]
    has come; otherwise it takes [default] and calls the blocking [Read].
    [fuel] bounds the number of iterations. *)
Fixpoint readLoop (fuel : nat) (timeout : nat) (length : Z)
    (data : list byte) (totalRead : Z) (c : conn) : outcome (loop_exit * conn) :=
  if totalRead <? length then
    match fuel with
    | O => OutOfFuel
    | S fuel' =>
        if (timeout <=? now c)%nat then
          Returned (LoopReturn (SCAN_PROTOCOL_ERROR, None, Some errReadTimeout), c)
        else
          do (n, got, err, c1) <-
             Read c (List.length (skipn (Z.to_nat totalRead) data));
          let data' := store_at data totalRead got in
          match err with
          | Some e =>
              if is_EOF e then Returned (LoopDone data' (totalRead + n), c1)
              else Returned (LoopReturn (TryGetScanStatus e, None, Some e), c1)
          | None => readLoop fuel' timeout length data' (totalRead + n) c1
          end
    end
  else Returned (LoopDone data totalRead, c).

(** Lines 203-229: the second payload read and the encoding of both buffers. *)
Definition Scan_round2_read (data : list byte) (length : Z) (c : conn)
  : outcome (scan_return * conn) :=
  let data2 := make_bytes length in
  let timeout := time_After c (5 * Second) in
  do (ex, c1) <- readLoop (Z.to_nat length) timeout length data2 0 c;
  match ex with
  | LoopReturn r => Returned (r, c1)
  | LoopDone data2' _ =>
      let results := mkResults (EncodeToString data) (EncodeToString data2') in
      Returned ((SCAN_SUCCESS, Some results, None), c1)
  end.

(** Lines 189-201: the second probe, its length prefix and the check on it. *)
Definition Scan_round2 (s : Scanner) (data : list byte) (c : conn)
  : outcome (scan_return * conn) :=
  match Write c (probe2 s) with
  | (Some err, c1) => Returned ((TryGetScanStatus err, None, Some err), c1)
  | (None, c1) =>
      do (r, c2) <- readVarInt c1;
      match r with
      | (_, Some readErr) =>
          Returned ((TryGetScanStatus readErr, None, Some readErr), c2)
      | (length, None) =>
          if negb (length =? 9) then
            Returned ((SCAN_PROTOCOL_ERROR, None, Some errLengthMismatch), c2)
          else Scan_round2_read data length c2
      end
  end.

(** Lines 168-187: the first payload read. *)
Definition Scan_round1_read (s : Scanner) (length : Z) (c : conn)
  : outcome (scan_return * conn) :=
  let data := make_bytes length in
  let timeout := time_After c (5 * Second) in
  do (ex, c1) <- readLoop (Z.to_nat length) timeout length data 0 c;
  match ex with
  | LoopReturn r => Returned (r, c1)
  | LoopDone data' _ => Scan_round2 s data' c1
  end.

(** Lines 150-166: the first probe, its length prefix and the checks on it. *)
Definition Scan_conn (s : Scanner) (c : conn) : outcome (scan_return * conn) :=
  match Write c (probe1 s) with
  | (Some err, c1) => Returned ((TryGetScanStatus err, None, Some err), c1)
  | (None, c1) =>
      do (r, c2) <- readVarInt c1;
      match r with
      | (_, Some readErr) =>
          Returned ((TryGetScanStatus readErr, None, Some readErr), c2)
      | (length, None) =>
          if length >? 32800 then
            Returned ((SCAN_PROTOCOL_ERROR, None, Some errBannerTooLong), c2)
          else if length <? 1 then
            Returned ((SCAN_PROTOCOL_ERROR, None, Some errZeroNegative), c2)
          else Scan_round1_read s length c2
      end
  end.

(** [Scan]: lines 144-148, then the rest on the open connection; the
    deferred [conn.Close()] runs on every return that follows [Open]. *)
Definition Scan (s : Scanner) (target : ScanTarget) : outcome (scan_return * option conn) :=
  match Open target with
  | inr err => Returned ((TryGetScanStatus err, None, Some err), None)
  | inl c =>
      do (r, c1) <- Scan_conn s c;
      Returned (r, Some (Close c1))
  end.

(** ** Vocabulary of the statements *)

(** The bytes a reader can get before the next error or silence. *)
Fixpoint pending (inc : list (nat * event)) : list byte :=
  match inc with
  | (_, Recv b bs) :: rest => b :: bs ++ pending rest
  | _ => []
  end.

(** The continuation flag of a byte. *)
Definition continues (b : byte) : bool := negb (Z.land (byte_val b) 0x80 =? 0).

(** The value the spec gives a varint: group [i] shifted left by [7 * i]. *)
Fixpoint varint_sum (i : Z) (bs : list byte) : Z :=
  match bs with
  | [] => 0
  | b :: bs' => Z.shiftl (Z.land (byte_val b) 0x7F) (7 * i) + varint_sum (i + 1) bs'
  end.

(** How a piece of [Scan] fails: with a [nil] result and an error, under the
    status the framework's helper gives that error or, for the errors in
    [own] that the scanner makes itself, under the protocol error status. *)
Definition fails_with (own : list error) (r : scan_return) : Prop :=
  exists st e, r = (st, None, Some e) /\
    (st = TryGetScanStatus e \/ (st = SCAN_PROTOCOL_ERROR /\ In e own)).

(** A round that went through: the probe was written, a length prefix
    accepted by [check] was decoded, and the read loop was left normally
    with the buffer [data]. *)
Definition round_ok (probe : list byte) (check : Z -> bool)
    (c : conn) (data : list byte) (c' : conn) : Prop :=
  exists (c1 : conn) (length : Z) (c2 : conn) (totalRead : Z),
    Write c probe = (None, c1) /\
    readVarInt c1 = Returned ((length, None), c2) /\
    check length = true /\
    readLoop (Z.to_nat length) (time_After c2 (5 * Second)) length
      (make_bytes length) 0 c2 = Returned (LoopDone data totalRead, c').

(** The lengths each round accepts (lines 161-166 and 199-201). *)
Definition check1 (length : Z) : bool := (1 <=? length) && (length <=? 32800).
Definition check2 (length : Z) : bool := length =? 9.

(** The return of line 229 for the buffers [data] and [data2]. *)
Definition success (data data2 : list byte) : scan_return :=
  (SCAN_SUCCESS, Some (mkResults (EncodeToString data) (EncodeToString data2)), None).

(** The errors [Scan] makes itself, and those left once round 1 has
    accepted its length prefix. *)
Definition own_errors : list error :=
  [errBannerTooLong; errZeroNegative; errLengthMismatch; errReadTimeout].
Definition late_errors : list error := [errLengthMismatch; errReadTimeout].

(** Concrete inputs: a fresh connection on which every write succeeds, a
    scanner with the default probes, and some peers. *)
Definition demo_conn (inc : list (nat * event)) : conn :=
  mkConn 0 inc [] [] false.

Definition demo_scanner : Scanner := mkScanner [x0a] [x0a].

Definition five_continuation_bytes : list (nat * event) :=
  [(2%nat, Recv x80 [x80; x80; x80; x80; x01])].

(** Both rounds of a scan of [target] went through, with the buffers
    [data] and [data2]. *)
Definition scan_rounds_ok (s : Scanner) (target : ScanTarget)
    (data data2 : list byte) : Prop :=
  exists c cm c',
    Open target = inl c /\
    round_ok (probe1 s) check1 c data cm /\
    round_ok (probe2 s) check2 cm data2 c'.

Definition two_answers : list (nat * event) :=
  [(3%nat, Recv x05 [x01; x02; x03; x04; x05]);
   (4%nat, Recv x09 [x11; x12; x13; x14; x15; x16; x17; x18; x19])].

(** The value of a lowercase hexadecimal digit, from its character code:
    48-57 are the digits 0-9 and 97-102 the letters a-f; no other character
    has a value. *)
Definition hexval (a : ascii) : option Z :=
  let n := Z.of_nat (nat_of_ascii a) in
  if (48 <=? n) && (n <=? 57) then Some (n - 48)
  else if (97 <=? n) && (n <=? 102) then Some (n - 87)
  else None.

(** Reading a text of lowercase hexadecimal digit pairs back as byte values. *)
Fixpoint decode_lower (t : string) : option (list Z) :=
  match t with
  | EmptyString => Some []
  | String hi (String lo t') =>
      match hexval hi, hexval lo, decode_lower t' with
      | Some h, Some l, Some vs => Some (16 * h + l :: vs)
      | _, _, _ => None
      end
  | String _ EmptyString => None
  end.

(** A segment of the peer's data with the wait before it. *)
Definition segment : Set := (nat * (byte * list byte))%type.

Definition seg_event (sg : segment) : nat * event :=
  (fst sg, Recv (fst (snd sg)) (snd (snd sg))).
Definition seg_bytes (sg : segment) : list byte := fst (snd sg) :: snd (snd sg).
Definition segs_bytes (segs : list segment) : list byte := flat_map seg_bytes segs.
Definition segs_wait (segs : list segment) : nat := list_sum (map fst segs).

Definition short_answer : list (nat * event) :=
  [(1%nat, Recv x0a []);
   (2%nat, Recv x01 [x02; x03]); (3%nat, Recv x04 [x05]);
   (1%nat, Err io_EOF); (0%nat, Err io_EOF)].

(** The peer's answer to a probe: the length byte [v] and the payload
    [a :: p], in one segment or in two. *)
Definition answer (w w' : nat) (v a : byte) (p : list byte) (coalesced : bool)
  : list (nat * event) :=
  if coalesced then [(w, Recv v (a :: p))]
  else [(w, Recv v []); (w', Recv a p)].

Definition late_payload : list (nat * event) :=
  [(1%nat, Recv x05 [x01; x02; x03; x04; x05]);
   (1%nat, Recv x09 []);
   ((6 * Second)%nat, Recv x11 [x12; x13; x14; x15; x16; x17; x18; x19])].

(** The number of data bytes the peer has still to deliver. *)
Fixpoint bytes_in (inc : list (nat * event)) : nat :=
  match inc with
  | [] => 0
  | (_, Recv b bs) :: rest => S (List.length bs) + bytes_in rest
  | (_, Err _) :: rest => bytes_in rest
  end.

(** The return of the timer's case of a read loop (lines 176 and 211). *)
Definition timed_out : scan_return :=
  (SCAN_PROTOCOL_ERROR, None, Some errReadTimeout).

(** A peer that sends the length 3, one byte at once and the next five
    seconds later. *)
Definition trickle : list (nat * event) :=
  [(0%nat, Recv x03 [x01]); ((5 * Second)%nat, Recv x02 [])].





(** * Properties *)

(** ** Arithmetic of one varint group *)

Lemma byte_val_range (b : byte) : 0 <= byte_val b < 256.
Proof.
  unfold byte_val. pose proof (to_N_bounded b). lia.
Qed.

Lemma int_wrap_small (z : Z) : 0 <= z < 2 ^ 63 -> int_wrap z = z.
Proof.
  intros Hz. unfold int_wrap.
  rewrite Z.mod_small by lia. lia.
Qed.

Lemma group_range (b : byte) : 0 <= Z.land (byte_val b) 0x7F < 128.
Proof.
  change 0x7F with (Z.ones 7). rewrite Z.land_ones by lia.
  apply Z.mod_pos_bound. reflexivity.
Qed.

Lemma land_shiftl_disjoint (a x k : Z) :
  0 <= k -> 0 <= a < 2 ^ k -> Z.land a (Z.shiftl x k) = 0.
Proof.
  intros Hk Ha. apply Z.bits_inj'. intros n Hn.
  rewrite Z.land_spec, Z.bits_0.
  destruct (Z.lt_ge_cases n k) as [Hlt | Hge].
  - rewrite Z.shiftl_spec_low by assumption. apply andb_false_r.
  - replace a with (a mod 2 ^ k) by (apply Z.mod_small; assumption).
    rewrite Z.mod_pow2_bits_high by lia. reflexivity.
Qed.

Lemma lor_shiftl_add (a x k : Z) :
  0 <= k -> 0 <= a < 2 ^ k -> Z.lor a (Z.shiftl x k) = a + x * 2 ^ k.
Proof.
  intros Hk Ha.
  rewrite <- Z.lxor_lor, <- Z.add_nocarry_lxor
    by (apply land_shiftl_disjoint; assumption).
  rewrite Z.shiftl_mul_pow2 by assumption. reflexivity.
Qed.

(** One pass of the body of [readVarInt]: the new group is added above the
    ones already there, and nothing wraps. *)
Lemma group_step (result shift : Z) (b : byte) :
  0 <= shift <= 28 -> 0 <= result < 2 ^ shift ->
  let g := Z.land (byte_val b) 0x7F in
  Z.lor result (int_wrap (Z.shiftl g shift)) = result + g * 2 ^ shift /\
  0 <= result + g * 2 ^ shift < 2 ^ (shift + 7).
Proof.
  intros Hs Hr g. pose proof (group_range b) as Hg. fold g in Hg.
  assert (Hp : 0 < 2 ^ shift) by (apply Z.pow_pos_nonneg; lia).
  assert (Hle : 2 ^ shift <= 2 ^ 28) by (apply Z.pow_le_mono_r; lia).
  assert (Hsh : Z.shiftl g shift = g * 2 ^ shift)
    by (apply Z.shiftl_mul_pow2; lia).
  rewrite int_wrap_small.
  - split.
    + apply lor_shiftl_add; lia.
    + rewrite Z.pow_add_r by lia. change (2 ^ 7) with 128. nia.
  - rewrite Hsh. change (2 ^ 28) with 268435456 in Hle.
    change (2 ^ 63) with 9223372036854775808. nia.
Qed.

(** ** The byte stream seen through one-byte reads *)

Lemma Read_one (c : conn) (b : byte) (tl : list byte) :
  pending (incoming c) = b :: tl ->
  exists c1, Read c 1 = Returned ((1, [b], None), c1) /\
             pending (incoming c1) = tl /\
             wresults c1 = wresults c /\ sent c1 = sent c.
Proof.
  unfold Read. destruct (incoming c) as [| [wait [b0 bs0 | e]] rest];
    cbn [pending]; intros H; try discriminate.
  injection H as -> <-.
  eexists. split; [reflexivity |].
  cbn [skipn incoming wresults sent].
  destruct bs0 as [| b' bs']; cbn [pending app]; auto.
Qed.

Lemma readVarInt_loop_value (pre : list byte) :
  forall (l : byte) (tl : list byte) (remaining : nat) (result i : Z) (c : conn),
    (List.length pre < remaining)%nat ->
    0 <= i -> i + Z.of_nat (List.length pre) <= 4 ->
    0 <= result < 2 ^ (7 * i) ->
    forallb continues pre = true -> continues l = false ->
    pending (incoming c) = pre ++ [l] ++ tl ->
    exists c1,
      readVarInt_loop remaining result (7 * i) c =
        Returned ((result + varint_sum i (pre ++ [l]), None), c1) /\
      pending (incoming c1) = tl /\
      wresults c1 = wresults c /\ sent c1 = sent c.
Proof.
  induction pre as [| b pre IH];
    intros l tl remaining result i c Hrem Hi Hlen Hres Hpre Hl Hpend;
    (destruct remaining as [| remaining]; [cbn in Hrem; lia |]);
    cbn [List.length] in *; cbn [app] in Hpend;
    destruct (Read_one _ _ _ Hpend) as (c1 & HR & Hp1 & Hw1 & Hs1);
    cbn [readVarInt_loop]; rewrite HR; cbn [obind nth].
  - destruct (group_step result (7 * i) l ltac:(lia) Hres) as [Heq Hb].
    rewrite Heq. unfold continues in Hl. apply negb_false_iff in Hl.
    rewrite Hl. exists c1. cbn [app varint_sum].
    rewrite Z.shiftl_mul_pow2 by lia. rewrite Z.add_0_r. auto.
  - destruct (group_step result (7 * i) b ltac:(lia) Hres) as [Heq Hb].
    rewrite Heq. cbn [forallb] in Hpre. apply andb_prop in Hpre as [Hc Hpre].
    unfold continues in Hc. apply negb_true_iff in Hc. rewrite Hc.
    replace (7 * i + 7) with (7 * (i + 1)) in * by lia.
    destruct (IH l tl remaining (result + Z.land (byte_val b) 127 * 2 ^ (7 * i))
                (i + 1) c1) as (c2 & HL & Hp2 & Hw2 & Hs2);
      try assumption; try lia.
    exists c2. rewrite HL. cbn [app varint_sum].
    rewrite Z.shiftl_mul_pow2 by lia.
    repeat split; try congruence. do 3 f_equal. lia.
Qed.

Lemma readVarInt_loop_too_long (pre : list byte) :
  forall (tl : list byte) (result shift : Z) (c : conn),
    forallb continues pre = true ->
    pending (incoming c) = pre ++ tl ->
    exists c1,
      readVarInt_loop (List.length pre) result shift c =
        Returned ((0, Some errVarintTooLong), c1) /\
      pending (incoming c1) = tl /\
      wresults c1 = wresults c /\ sent c1 = sent c.
Proof.
  induction pre as [| b pre IH]; intros tl result shift c Hpre Hpend.
  - exists c. cbn. auto.
  - cbn [app] in Hpend.
    destruct (Read_one _ _ _ Hpend) as (c1 & HR & Hp1 & Hw1 & Hs1).
    cbn [forallb] in Hpre. apply andb_prop in Hpre as [Hc Hpre].
    unfold continues in Hc. apply negb_true_iff in Hc.
    cbn [List.length readVarInt_loop]. rewrite HR. cbn [obind nth]. rewrite Hc.
    edestruct (IH tl) as (c2 & HL & Hp2 & Hw2 & Hs2); [exact Hpre | exact Hp1 |].
    exists c2. rewrite HL. repeat split; congruence.
Qed.

Lemma readVarInt_loop_range (remaining : nat) :
  forall (result i v : Z) (c c1 : conn),
    0 <= i -> i + Z.of_nat remaining <= 5 ->
    0 <= result < 2 ^ (7 * i) ->
    readVarInt_loop remaining result (7 * i) c = Returned ((v, None), c1) ->
    0 <= v < 2 ^ 35.
Proof.
  induction remaining as [| remaining IH]; intros result i v c c1 Hi Hrem Hres H.
  - discriminate.
  - cbn [readVarInt_loop] in H.
    destruct (Read c 1) as [[[[n bts] [e |]] c'] | |]; cbn [obind] in H;
      try discriminate.
    destruct (group_step result (7 * i) (nth 0 bts x00) ltac:(lia) Hres)
      as [Heq Hb].
    rewrite Heq in H.
    destruct (Z.land (byte_val (nth 0 bts x00)) 128 =? 0).
    + assert (Hv : result + Z.land (byte_val (nth 0 bts x00)) 127 * 2 ^ (7 * i) = v)
        by congruence.
      assert (2 ^ (7 * i + 7) <= 2 ^ 35) by (apply Z.pow_le_mono_r; lia).
      lia.
    + replace (7 * i + 7) with (7 * (i + 1)) in * by lia.
      eapply (IH _ (i + 1)); [| | exact Hb | exact H]; lia.
Qed.

Lemma readVarInt_loop_error_value (remaining : nat) :
  forall (result shift v : Z) (e : error) (c c1 : conn),
    readVarInt_loop remaining result shift c = Returned ((v, Some e), c1) ->
    v = 0.
Proof.
  induction remaining as [| remaining IH]; intros result shift v e c c1 H.
  - injection H as <- _. reflexivity.
  - cbn [readVarInt_loop] in H.
    destruct (Read c 1) as [[[[n bts] [e' |]] c'] | |]; cbn [obind] in H;
      try discriminate.
    + injection H as <- _. reflexivity.
    + destruct (Z.land (byte_val (nth 0 bts x00)) 128 =? 0); [discriminate |].
      eapply IH; exact H.
Qed.

Lemma clear_flag_value (b : byte) :
  continues b = false -> Z.land (byte_val b) 0x7F = byte_val b.
Proof.
  intros H; destruct b; vm_compute in H |- *; congruence.
Qed.

(** ** The read loop *)

Lemma fails_with_classified (own : list error) (e : error) :
  fails_with own (TryGetScanStatus e, None, Some e).
Proof. exists (TryGetScanStatus e), e. auto. Qed.

Lemma fails_with_own (own : list error) (e : error) :
  In e own -> fails_with own (SCAN_PROTOCOL_ERROR, None, Some e).
Proof. intros H. exists SCAN_PROTOCOL_ERROR, e. auto. Qed.

Lemma fails_with_incl (own own' : list error) (r : scan_return) :
  incl own own' -> fails_with own r -> fails_with own' r.
Proof.
  intros Hi (st & e & -> & [H | [H1 H2]]); exists st, e; auto.
Qed.

(** A plain error under the protocol error status is one of the scanner's
    own: the helper never gives that status to a plain error. *)
Lemma fails_with_protocol (own : list error) (msg : string) :
  fails_with own (SCAN_PROTOCOL_ERROR, None, Some (errorString msg)) ->
  In (errorString msg) own.
Proof.
  intros (st & e & Heq & [H | [_ H]]);
    injection Heq as <- <-; [discriminate | assumption].
Qed.

Create HintDb scan discriminated.
#[local] Hint Resolve fails_with_classified fails_with_own : scan.
#[local] Hint Extern 1 (In _ _) =>
  unfold late_errors, own_errors; cbn [In]; auto : scan.

(** A [return] met while unfolding [Scan]: the returned triple is the one of
    the hypothesis. *)
Ltac returned H := injection H as <- _.

Lemma Read_spec (c c1 : conn) (cap : nat) (n : Z) (got : list byte)
    (err : option error) :
  Read c cap = Returned ((n, got, err), c1) ->
  n = Z.of_nat (List.length got) /\
  (List.length got <= cap)%nat /\
  (err = None -> (1 <= cap)%nat -> (1 <= List.length got)%nat) /\
  (now c <= now c1)%nat.
Proof.
  unfold Read. destruct (incoming c) as [| [wait [b bs | e]] rest]; intros H;
    try discriminate.
  - assert (Hn : Z.of_nat (List.length (firstn cap (b :: bs))) = n) by congruence.
    assert (Hg : firstn cap (b :: bs) = got) by congruence.
    assert (Hc : now c1 = (now c + wait)%nat)
      by (injection H as _ _ _ <-; reflexivity).
    subst got n. rewrite length_firstn. cbn [List.length].
    repeat split; intros; lia.
  - assert (Hn : 0 = n) by congruence.
    assert (Hg : [] = got) by congruence.
    assert (He : Some e = err) by congruence.
    assert (Hc : now c1 = (now c + wait)%nat)
      by (injection H as _ _ _ <-; reflexivity).
    subst. cbn. repeat split; intros; (lia || discriminate).
Qed.

Lemma Read_fuel (c : conn) (cap : nat) : Read c cap <> OutOfFuel.
Proof.
  unfold Read. destruct (incoming c) as [| [wait [b bs | e]] rest]; discriminate.
Qed.

Lemma readVarInt_loop_fuel (remaining : nat) :
  forall (result shift : Z) (c : conn),
    readVarInt_loop remaining result shift c <> OutOfFuel.
Proof.
  induction remaining as [| remaining IH]; intros result shift c;
    cbn [readVarInt_loop]; [discriminate |].
  destruct (Read c 1) as [[[[n b] [e |]] c1] | |] eqn:HR; cbn [obind];
    try discriminate; [| exact (fun _ => Read_fuel _ _ HR)].
  destruct (Z.land _ _ =? 0); [discriminate | apply IH].
Qed.

Lemma store_at_length (data got : list byte) (totalRead : Z) :
  0 <= totalRead ->
  (Z.to_nat totalRead + List.length got <= List.length data)%nat ->
  List.length (store_at data totalRead got) = List.length data.
Proof.
  intros Ht Hfit. unfold store_at.
  rewrite !length_app, length_firstn, length_skipn. lia.
Qed.

(** With a buffer of the declared length, [length - totalRead] iterations
    are always enough: every read that does not fail stores a byte. *)
Lemma readLoop_fuel (fuel : nat) :
  forall (timeout : nat) (length : Z) (data : list byte) (totalRead : Z) (c : conn),
    List.length data = Z.to_nat length -> 0 <= totalRead ->
    (Z.to_nat (length - totalRead) <= fuel)%nat ->
    readLoop fuel timeout length data totalRead c <> OutOfFuel.
Proof.
  induction fuel as [| fuel IH]; intros timeout length data totalRead c Hd Ht Hf;
    cbn [readLoop]; destruct (Z.ltb_spec totalRead length) as [Hlt | Hge];
    try discriminate; try lia.
  destruct (timeout <=? now c)%nat; [discriminate |].
  destruct (Read c _) as [[[[n got] err] c1] | |] eqn:HR; cbn [obind];
    try discriminate; [| exact (fun _ => Read_fuel _ _ HR)].
  apply Read_spec in HR as (Hn & Hcap & Hpos & _).
  rewrite length_skipn in Hcap, Hpos.
  destruct err as [e |]; [destruct (is_EOF e); discriminate |].
  specialize (Hpos eq_refl ltac:(lia)).
  apply IH; [| lia | lia].
  rewrite store_at_length; [assumption | assumption | lia].
Qed.

(** Every [return] inside the loop is a failure with a [nil] result; a loop
    left normally hands on a buffer of the length it was given. *)
Lemma readLoop_exit (fuel : nat) :
  forall (timeout : nat) (length : Z) (data : list byte) (totalRead : Z)
         (c c1 : conn) (ex : loop_exit),
    List.length data = Z.to_nat length -> 0 <= totalRead ->
    readLoop fuel timeout length data totalRead c = Returned (ex, c1) ->
    match ex with
    | LoopReturn r => fails_with [errReadTimeout] r
    | LoopDone data' _ => List.length data' = Z.to_nat length
    end.
Proof.
  induction fuel as [| fuel IH];
    intros timeout length data totalRead c c1 ex Hd Ht H;
    cbn [readLoop] in H; destruct (Z.ltb_spec totalRead length) as [Hlt | Hge];
    try discriminate;
    try (injection H as <- _; assumption).
  destruct (timeout <=? now c)%nat.
  { returned H. auto with scan. }
  destruct (Read c _) as [[[[n got] err] c'] | |] eqn:HR; cbn [obind] in H;
    try discriminate.
  apply Read_spec in HR as (Hn & Hcap & Hpos & _).
  rewrite length_skipn in Hcap.
  assert (Hlen : List.length (store_at data totalRead got) = Z.to_nat length)
    by (rewrite store_at_length; [assumption | assumption | lia]).
  destruct err as [e |].
  - destruct (is_EOF e); injection H as <- _.
    + assumption.
    + apply fails_with_classified.
  - eapply IH; [exact Hlen | | exact H]. lia.
Qed.

(** ** The shape of what [Scan] returns *)

Lemma make_bytes_length (length : Z) :
  List.length (make_bytes length) = Z.to_nat length.
Proof. apply repeat_length. Qed.

Lemma Scan_round2_read_inv (data : list byte) (length : Z) (c c' : conn)
    (r : scan_return) :
  0 <= length ->
  Scan_round2_read data length c = Returned (r, c') ->
  fails_with [errReadTimeout] r \/
  exists data2 totalRead,
    readLoop (Z.to_nat length) (time_After c (5 * Second)) length
      (make_bytes length) 0 c = Returned (LoopDone data2 totalRead, c') /\
    r = success data data2.
Proof.
  unfold Scan_round2_read. intros Hl H.
  destruct (readLoop _ _ _ _ _ _) as [[[data2 tr | r'] c3] | |] eqn:HL;
    cbn [obind] in H; try discriminate.
  - injection H as <- <-. right. exists data2, tr. auto.
  - injection H as <- _. left.
    apply readLoop_exit in HL; [exact HL | apply make_bytes_length | lia].
Qed.

Lemma Scan_round2_inv (s : Scanner) (data : list byte) (c c' : conn)
    (r : scan_return) :
  Scan_round2 s data c = Returned (r, c') ->
  fails_with late_errors r \/
  exists data2, round_ok (probe2 s) check2 c data2 c' /\ r = success data data2.
Proof.
  unfold Scan_round2. intros H.
  destruct (Write c (probe2 s)) as [[e |] c1] eqn:HW.
  { returned H. auto with scan. }
  destruct (readVarInt c1) as [[[length [e |]] c2] | |] eqn:HV;
    cbn [obind] in H; try discriminate.
  { returned H. auto with scan. }
  destruct (Z.eqb_spec length 9) as [H9 | H9]; cbn [negb] in H.
  2:{ returned H. auto with scan. }
  apply Scan_round2_read_inv in H as [Hf | (data2 & tr & HL & ->)]; [| | lia].
  - left. revert Hf. apply fails_with_incl. intros x [<- | []]. right. left. reflexivity.
  - right. exists data2. split; [| reflexivity].
    exists c1, length, c2, tr. repeat split; try assumption.
    unfold check2. apply Z.eqb_eq. assumption.
Qed.

Lemma Scan_round1_read_inv (s : Scanner) (length : Z) (c c' : conn)
    (r : scan_return) :
  0 <= length ->
  Scan_round1_read s length c = Returned (r, c') ->
  fails_with late_errors r \/
  exists data totalRead cm data2,
    readLoop (Z.to_nat length) (time_After c (5 * Second)) length
      (make_bytes length) 0 c = Returned (LoopDone data totalRead, cm) /\
    round_ok (probe2 s) check2 cm data2 c' /\
    r = success data data2.
Proof.
  unfold Scan_round1_read. intros Hl H.
  destruct (readLoop _ _ _ _ _ _) as [[[data tr | r'] c3] | |] eqn:HL;
    cbn [obind] in H; try discriminate.
  - apply Scan_round2_inv in H as [Hf | (data2 & Hr2 & ->)]; [left; exact Hf |].
    right. exists data, tr, c3, data2. auto.
  - injection H as <- _. left.
    apply readLoop_exit in HL; [| apply make_bytes_length | lia].
    revert HL. apply fails_with_incl. intros x [<- | []]. right. left. reflexivity.
Qed.

Lemma Scan_conn_inv (s : Scanner) (c c' : conn) (r : scan_return) :
  Scan_conn s c = Returned (r, c') ->
  fails_with own_errors r \/
  exists data cm data2,
    round_ok (probe1 s) check1 c data cm /\
    round_ok (probe2 s) check2 cm data2 c' /\
    r = success data data2.
Proof.
  unfold Scan_conn. intros H.
  destruct (Write c (probe1 s)) as [[e |] c1] eqn:HW.
  { returned H. auto with scan. }
  destruct (readVarInt c1) as [[[length [e |]] c2] | |] eqn:HV;
    cbn [obind] in H; try discriminate.
  { returned H. auto with scan. }
  destruct (Z.gtb_spec length 32800) as [Hgt | Hle].
  { returned H. auto with scan. }
  destruct (Z.ltb_spec length 1) as [Hlt | Hge].
  { returned H. auto with scan. }
  apply Scan_round1_read_inv in H
    as [Hf | (data & tr & cm & data2 & HL & Hr2 & ->)]; [| | lia].
  - left. revert Hf. apply fails_with_incl. intros x Hx. right. right. exact Hx.
  - right. exists data, cm, data2. split; [| split; [exact Hr2 | reflexivity]].
    exists c1, length, c2, tr. repeat split; try assumption.
    unfold check1. apply andb_true_intro. split; apply Z.leb_le; lia.
Qed.

(** The converse: two rounds that went through make the scan succeed. *)
Lemma Scan_conn_complete (s : Scanner) (c cm c' : conn) (data data2 : list byte) :
  round_ok (probe1 s) check1 c data cm ->
  round_ok (probe2 s) check2 cm data2 c' ->
  Scan_conn s c = Returned (success data data2, c').
Proof.
  intros (c1 & L & c2 & tr & HW & HV & Hc & HL)
         (d1 & L2 & d2 & tr2 & HW2 & HV2 & Hc2 & HL2).
  unfold check1 in Hc. apply andb_prop in Hc as [Hlo Hhi].
  apply Z.leb_le in Hlo, Hhi. unfold check2 in Hc2.
  unfold Scan_conn. rewrite HW, HV. cbn [obind].
  destruct (Z.gtb_spec L 32800); [lia |].
  destruct (Z.ltb_spec L 1); [lia |].
  unfold Scan_round1_read. rewrite HL. cbn [obind].
  unfold Scan_round2. rewrite HW2, HV2. cbn [obind]. rewrite Hc2. cbn [negb].
  unfold Scan_round2_read. rewrite HL2. reflexivity.
Qed.

(** [Scan] gives its read loops enough iterations. *)
Lemma Scan_conn_fuel (s : Scanner) (c : conn) : Scan_conn s c <> OutOfFuel.
Proof.
  unfold Scan_conn.
  destruct (Write c (probe1 s)) as [[e |] c1]; [discriminate |].
  destruct (readVarInt c1) as [[[length [e |]] c2] | |] eqn:HV; cbn [obind];
    try discriminate; [| exact (fun _ => readVarInt_loop_fuel _ _ _ _ HV)].
  destruct (length >? 32800); [discriminate |].
  destruct (Z.ltb_spec length 1); [discriminate |].
  unfold Scan_round1_read.
  destruct (readLoop _ _ _ _ _ _) as [[[data tr | r'] c3] | |] eqn:HL;
    cbn [obind]; try discriminate.
  2:{ intros _. revert HL. apply readLoop_fuel;
        [apply make_bytes_length | lia | lia]. }
  clear HL. unfold Scan_round2.
  destruct (Write c3 (probe2 s)) as [[e |] c4]; [discriminate |].
  destruct (readVarInt c4) as [[[length2 [e |]] c5] | |] eqn:HV2; cbn [obind];
    try discriminate; [| exact (fun _ => readVarInt_loop_fuel _ _ _ _ HV2)].
  destruct (length2 =? 9); cbn [negb]; [| discriminate].
  unfold Scan_round2_read.
  destruct (readLoop _ _ _ _ _ _) as [[[data2 tr2 | r'] c6] | |] eqn:HL2;
    cbn [obind]; try discriminate.
  intros _. revert HL2. apply readLoop_fuel;
    [apply make_bytes_length | lia | lia].
Qed.

Lemma Scan_fuel (s : Scanner) (target : ScanTarget) : Scan s target <> OutOfFuel.
Proof.
  unfold Scan. destruct (Open target) as [c | e]; [| discriminate].
  destruct (Scan_conn s c) as [[r c1] | |] eqn:H; cbn [obind]; try discriminate.
  exact (fun _ => Scan_conn_fuel _ _ H).
Qed.

(** ** The varint decoder *)

Lemma continues_iff (b : byte) : continues b = false <-> byte_val b < 128.
Proof.
  destruct b; vm_compute; split; congruence.
Qed.

(** C6. For bytes b0..bn (n <= 4) of which exactly the last one has the
    continuation bit clear, [readVarInt] returns the sum of the groups
    [(bi & 0x7F) << (7 * i)], least significant group first, and consumes
    exactly these n+1 bytes; in particular a single byte below 128 is
    returned as it is, and one byte is consumed. *)
Theorem readVarInt_decodes :
  (forall (c : conn) (pre : list byte) (l : byte) (tl : list byte),
      (List.length pre <= 4)%nat ->
      forallb continues pre = true -> continues l = false ->
      pending (incoming c) = pre ++ [l] ++ tl ->
      exists c1,
        readVarInt c = Returned ((varint_sum 0 (pre ++ [l]), None), c1) /\
        pending (incoming c1) = tl) /\
  (forall (c : conn) (b : byte) (tl : list byte),
      byte_val b < 128 ->
      pending (incoming c) = b :: tl ->
      exists c1,
        readVarInt c = Returned ((byte_val b, None), c1) /\
        pending (incoming c1) = tl).
Proof.
  assert (G : forall c pre l tl,
             (List.length pre <= 4)%nat ->
             forallb continues pre = true -> continues l = false ->
             pending (incoming c) = pre ++ [l] ++ tl ->
             exists c1,
               readVarInt c = Returned ((varint_sum 0 (pre ++ [l]), None), c1) /\
               pending (incoming c1) = tl).
  { intros c pre l tl Hlen Hpre Hl Hpend.
    destruct (readVarInt_loop_value pre l tl maxBytes 0 0 c)
      as (c1 & H & Hp & _); try assumption; unfold maxBytes; try lia.
    exists c1. split; [exact H | exact Hp]. }
  split; [exact G |].
  intros c b tl Hb Hpend. apply continues_iff in Hb.
  destruct (G c [] b tl (Nat.le_0_l 4) eq_refl Hb Hpend) as (c1 & H & Hp).
  exists c1. split; [| exact Hp].
  rewrite H. cbn [app varint_sum].
  rewrite Z.shiftl_0_r, Z.add_0_r, (clear_flag_value b Hb). reflexivity.
Qed.

Lemma readVarInt_decodes_witness :
  (List.length [xac] <= 4)%nat /\
  forallb continues [xac] = true /\ continues x02 = false /\
  exists c1,
    readVarInt (demo_conn [(3%nat, Recv xac [x02; x07])]) =
      Returned ((300, None), c1) /\
    pending (incoming c1) = [x07].
Proof.
  split; [cbn; lia |]. split; [reflexivity |]. split; [reflexivity |].
  exact (proj1 readVarInt_decodes (demo_conn [(3%nat, Recv xac [x02; x07])])
           [xac] x02 [x07] (le_S _ _ (le_S _ _ (le_S _ _ (le_n 1))))
           eq_refl eq_refl eq_refl).
Defined.

(** C9. A value [readVarInt] returns without error lies in [0, 2^35), so it
    is never negative; hence [Scan] takes the branch of the zero/negative
    banner length only when the decoded length is exactly 0. *)
Theorem readVarInt_range :
  (forall (c c1 : conn) (v : Z),
      readVarInt c = Returned ((v, None), c1) -> 0 <= v < 2 ^ 35) /\
  (forall (s : Scanner) (c c' : conn),
      Scan_conn s c =
        Returned ((SCAN_PROTOCOL_ERROR, None, Some errZeroNegative), c') ->
      exists c1,
        Write c (probe1 s) = (None, c1) /\
        readVarInt c1 = Returned ((0, None), c')).
Proof.
  assert (G : forall c c1 v,
             readVarInt c = Returned ((v, None), c1) -> 0 <= v < 2 ^ 35).
  { intros c c1 v H.
    apply (readVarInt_loop_range maxBytes 0 0 v c c1); unfold maxBytes;
      try lia; exact H. }
  split; [exact G |].
  intros s c c' H. unfold Scan_conn in H.
  destruct (Write c (probe1 s)) as [[e |] c1] eqn:HW.
  { injection H as Hst He _. subst e. discriminate Hst. }
  destruct (readVarInt c1) as [[[length [e |]] c2] | |] eqn:HV;
    cbn [obind] in H; try discriminate.
  { injection H as Hst He _. subst e. discriminate Hst. }
  destruct (Z.gtb_spec length 32800) as [Hgt | Hle]; [discriminate |].
  destruct (Z.ltb_spec length 1) as [Hlt | Hge].
  - injection H as <-. apply G in HV as Hr.
    assert (length = 0) by lia. subst length. exists c1. auto.
  - apply Scan_round1_read_inv in H
      as [Hf | (data & tr & cm & data2 & _ & _ & Hs)]; [| discriminate | lia].
    apply fails_with_protocol in Hf.
    destruct Hf as [Hf | [Hf | []]]; discriminate.
Qed.

Lemma readVarInt_range_witness :
  readVarInt (demo_conn [(3%nat, Recv xff [xff; xff; xff; x7f])]) =
    Returned ((34359738367, None), mkConn 3 [] [] [] false) /\
  0 <= 34359738367 < 2 ^ 35.
Proof.
  split; [reflexivity |].
  exact (proj1 readVarInt_range
           (demo_conn [(3%nat, Recv xff [xff; xff; xff; x7f])])
           (mkConn 3 [] [] [] false) 34359738367 eq_refl).
Defined.

Lemma Write_incoming (c c1 : conn) (p : list byte) (r : option error) :
  Write c p = (r, c1) -> incoming c1 = incoming c /\ now c1 = now c.
Proof.
  unfold Write. destruct (wresults c) as [| [e |] ws]; intros H;
    injection H as _ <-; auto.
Qed.

(** C2, as the code has it.  When the first five bytes of the stream all
    have the continuation bit set, [readVarInt] consumes exactly these five
    bytes and fails with the value 0 and the error "varint too long"; [Scan]
    returns that error, in either round, with a [nil] result and under the
    status [TryGetScanStatus] gives it, which is the unknown error status
    and not the protocol error status. *)
Theorem malformed_varint (c : conn) (pre tl : list byte) :
  List.length pre = 5%nat ->
  forallb continues pre = true ->
  pending (incoming c) = pre ++ tl ->
  exists c1,
    readVarInt c = Returned ((0, Some errVarintTooLong), c1) /\
    pending (incoming c1) = tl /\
    TryGetScanStatus errVarintTooLong = SCAN_UNKNOWN_ERROR /\
    (forall (s : Scanner) (c0 : conn),
        Write c0 (probe1 s) = (None, c) ->
        Scan_conn s c0 =
          Returned ((SCAN_UNKNOWN_ERROR, None, Some errVarintTooLong), c1)) /\
    (forall (s : Scanner) (data : list byte) (c0 : conn),
        Write c0 (probe2 s) = (None, c) ->
        Scan_round2 s data c0 =
          Returned ((SCAN_UNKNOWN_ERROR, None, Some errVarintTooLong), c1)).
Proof.
  intros Hlen Hpre Hpend.
  destruct (readVarInt_loop_too_long pre tl 0 0 c Hpre Hpend)
    as (c1 & H & Hp & _).
  rewrite Hlen in H. fold maxBytes in H. fold (readVarInt c) in H.
  exists c1. split; [exact H |]. split; [exact Hp |]. split; [reflexivity |].
  split.
  - intros s c0 HW. unfold Scan_conn. rewrite HW, H. reflexivity.
  - intros s data c0 HW. unfold Scan_round2. rewrite HW, H. reflexivity.
Qed.

Lemma malformed_varint_witness :
  List.length [x80; x80; x80; x80; x80] = 5%nat /\
  forallb continues [x80; x80; x80; x80; x80] = true /\
  exists c1,
    readVarInt (demo_conn five_continuation_bytes) =
      Returned ((0, Some errVarintTooLong), c1) /\
    pending (incoming c1) = [x01].
Proof.
  split; [reflexivity |]. split; [reflexivity |].
  destruct (malformed_varint (demo_conn five_continuation_bytes)
              [x80; x80; x80; x80; x80] [x01] eq_refl eq_refl eq_refl)
    as (c1 & H & Hp & _).
  exists c1. split; [exact H | exact Hp].
Defined.

(** C2 as the spec states it fails: on a stream of five continuation bytes
    [Scan] returns the malformed varint error under the unknown error
    status, so not under the protocol error status. *)
Lemma varint_status_counterexample :
  Scan demo_scanner (mkTarget (inl (demo_conn five_continuation_bytes))) =
    Returned ((SCAN_UNKNOWN_ERROR, None, Some errVarintTooLong),
              Some (mkConn 2 [(0%nat, Recv x01 [])] [] [[x0a]] true)) /\
  ~ (exists oc,
        Scan demo_scanner (mkTarget (inl (demo_conn five_continuation_bytes))) =
          Returned ((SCAN_PROTOCOL_ERROR, None, Some errVarintTooLong), oc)).
Proof.
  split; [reflexivity |].
  intros [oc H]. vm_compute in H. discriminate H.
Qed.

(** ** The length checks *)

(** C3. In round 1 a decoded length above 32800 makes the scan fail with the
    "too long" error, and one below 1 with the "zero or negative" error,
    both under the protocol error status and with the connection as the
    varint decoder left it, so before any payload byte is read; for a length
    within [1, 32800] the scan goes on to the payload read and returns
    neither of these errors. *)
Theorem round1_length_check (s : Scanner) (c c1 c2 : conn) (length : Z) :
  Write c (probe1 s) = (None, c1) ->
  readVarInt c1 = Returned ((length, None), c2) ->
  (32800 < length ->
   Scan_conn s c =
     Returned ((SCAN_PROTOCOL_ERROR, None, Some errBannerTooLong), c2)) /\
  (length < 1 ->
   Scan_conn s c =
     Returned ((SCAN_PROTOCOL_ERROR, None, Some errZeroNegative), c2)) /\
  (1 <= length <= 32800 ->
   Scan_conn s c = Scan_round1_read s length c2 /\
   forall c',
     Scan_conn s c <>
       Returned ((SCAN_PROTOCOL_ERROR, None, Some errBannerTooLong), c') /\
     Scan_conn s c <>
       Returned ((SCAN_PROTOCOL_ERROR, None, Some errZeroNegative), c')).
Proof.
  intros HW HV. unfold Scan_conn. rewrite HW, HV. cbn [obind].
  destruct (Z.gtb_spec length 32800) as [Hgt | Hle];
    destruct (Z.ltb_spec length 1) as [Hlt | Hge];
    (split; [| split]); intros Hr; try lia; try reflexivity.
  split; [reflexivity |].
  intros c'; split; intros H;
    (apply Scan_round1_read_inv in H
      as [Hf | (data & tr & cm & data2 & _ & _ & Hs)]; [| discriminate | lia]);
    apply fails_with_protocol in Hf;
    destruct Hf as [Hf | [Hf | []]]; discriminate.
Qed.

Lemma round1_length_check_witness :
  Scan_conn demo_scanner (demo_conn [(1%nat, Recv x00 [x41])]) =
    Returned ((SCAN_PROTOCOL_ERROR, None, Some errZeroNegative),
              mkConn 1 [(0%nat, Recv x41 [])] [] [[x0a]] false).
Proof.
  refine (proj1 (proj2 (round1_length_check demo_scanner
            (demo_conn [(1%nat, Recv x00 [x41])])
            (mkConn 0 [(1%nat, Recv x00 [x41])] [] [[x0a]] false)
            (mkConn 1 [(0%nat, Recv x41 [])] [] [[x0a]] false)
            0 eq_refl eq_refl)) _).
  lia.
Defined.

(** C4. In round 2 a decoded length other than 9 makes the scan fail with
    the "length mismatch" error under the protocol error status, with the
    connection as the varint decoder left it: no payload byte is read,
    whatever would follow; for the length 9 the scan goes on to the payload
    read and does not return that error. *)
Theorem round2_length_check (s : Scanner) (data : list byte)
    (c c1 c2 : conn) (length : Z) :
  Write c (probe2 s) = (None, c1) ->
  readVarInt c1 = Returned ((length, None), c2) ->
  (length <> 9 ->
   Scan_round2 s data c =
     Returned ((SCAN_PROTOCOL_ERROR, None, Some errLengthMismatch), c2)) /\
  (length = 9 ->
   Scan_round2 s data c = Scan_round2_read data 9 c2 /\
   forall c',
     Scan_round2 s data c <>
       Returned ((SCAN_PROTOCOL_ERROR, None, Some errLengthMismatch), c')).
Proof.
  intros HW HV. unfold Scan_round2. rewrite HW, HV. cbn [obind].
  destruct (Z.eqb_spec length 9) as [H9 | H9]; cbn [negb];
    split; intros Hr; try lia; try reflexivity.
  subst length. split; [reflexivity |].
  intros c' H.
  apply Scan_round2_read_inv in H as [Hf | (data2 & tr & _ & Hs)];
    [| discriminate | lia].
  apply fails_with_protocol in Hf. destruct Hf as [Hf | []]. discriminate.
Qed.

Lemma round2_length_check_witness :
  Scan_round2 demo_scanner [x01] (demo_conn [(1%nat, Recv x08 [x41; x42])]) =
    Returned ((SCAN_PROTOCOL_ERROR, None, Some errLengthMismatch),
              mkConn 1 [(0%nat, Recv x41 [x42])] [] [[x0a]] false).
Proof.
  refine (proj1 (round2_length_check demo_scanner [x01]
            (demo_conn [(1%nat, Recv x08 [x41; x42])])
            (mkConn 0 [(1%nat, Recv x08 [x41; x42])] [] [[x0a]] false)
            (mkConn 1 [(0%nat, Recv x41 [x42])] [] [[x0a]] false)
            8 eq_refl eq_refl) _).
  lia.
Defined.

(** ** Results and errors *)

Lemma Scan_inv (s : Scanner) (target : ScanTarget) (r : scan_return)
    (oc : option conn) :
  Scan s target = Returned (r, oc) ->
  fails_with own_errors r \/
  exists data data2, scan_rounds_ok s target data data2 /\ r = success data data2.
Proof.
  unfold Scan. intros H. destruct (Open target) as [c | e] eqn:HO.
  - destruct (Scan_conn s c) as [[r' c1] | |] eqn:HS; cbn [obind] in H;
      try discriminate.
    injection H as <- _.
    apply Scan_conn_inv in HS as [Hf | (data & cm & data2 & H1 & H2 & ->)];
      [left; exact Hf |].
    right. exists data, data2. split; [| reflexivity]. exists c, cm, c1. auto.
  - returned H. auto with scan.
Qed.

Lemma Scan_complete (s : Scanner) (target : ScanTarget) (data data2 : list byte) :
  scan_rounds_ok s target data data2 ->
  exists oc, Scan s target = Returned (success data data2, oc).
Proof.
  intros (c & cm & c' & HO & H1 & H2). unfold Scan. rewrite HO.
  rewrite (Scan_conn_complete s c cm c' data data2 H1 H2). cbn [obind].
  eexists. reflexivity.
Qed.













(** C10. What [Scan] returns has a result other than [nil] exactly when its
    error is [nil]; and on each of its error paths [readVarInt] returns the
    value 0. *)
Theorem Scan_result_iff_no_error :
  (forall (s : Scanner) (target : ScanTarget) (st : ScanStatus)
          (res : option Results) (err : option error) (oc : option conn),
      Scan s target = Returned ((st, res, err), oc) ->
      (res <> None <-> err = None)) /\
  (forall (c c1 : conn) (v : Z) (e : error),
      readVarInt c = Returned ((v, Some e), c1) -> v = 0).
Proof.
  split.
  - intros s target st res err oc H.
    apply Scan_inv in H as [(st' & e & Heq & _) | (data & data2 & _ & Heq)];
      injection Heq as -> -> ->; split; intros H; congruence.
  - intros c c1 v e H. exact (readVarInt_loop_error_value _ _ _ _ _ _ _ H).
Qed.

Lemma Scan_result_iff_no_error_witness :
  (Some (mkResults "0102030405" "111213141516171819") <> None <->
   @None error = None) /\
  0 = 0.
Proof.
  split.
  - exact (proj1 Scan_result_iff_no_error demo_scanner
             (mkTarget (inl (demo_conn two_answers)))
             SCAN_SUCCESS (Some (mkResults "0102030405" "111213141516171819"))
             None (Some (mkConn 7 [] [] [[x0a]; [x0a]] true)) eq_refl).
  - exact (proj2 Scan_result_iff_no_error
             (demo_conn five_continuation_bytes)
             (mkConn 2 [(0%nat, Recv x01 [])] [] [] false)
             0 errVarintTooLong eq_refl).
Defined.

(** ** The hexadecimal encoding *)

Lemma hexdigits_of_byte (v : byte) :
  exists h l,
    hexval (hexdigit (Z.shiftr (byte_val v) 4)) = Some h /\
    hexval (hexdigit (Z.land (byte_val v) 0x0f)) = Some l /\
    16 * h + l = byte_val v.
Proof.
  destruct v; vm_compute; do 2 eexists; repeat split.
Qed.

Lemma EncodeToString_lower (src : list byte) :
  decode_lower (EncodeToString src) = Some (map byte_val src) /\
  String.length (EncodeToString src) = (2 * List.length src)%nat.
Proof.
  induction src as [| v src [IHd IHl]]; [split; reflexivity |].
  destruct (hexdigits_of_byte v) as (h & l & Hh & Hl & Hv).
  cbn [EncodeToString decode_lower map String.length List.length].
  rewrite Hh, Hl, IHd, IHl, Hv. split; [reflexivity | lia].
Qed.

(** ** Running the read loop on a given stream *)

Lemma readLoop_done (fuel timeout : nat) (length : Z) (data : list byte)
    (totalRead : Z) (c : conn) :
  length <= totalRead ->
  readLoop fuel timeout length data totalRead c =
    Returned (LoopDone data totalRead, c).
Proof.
  intros H. destruct fuel; cbn [readLoop];
    destruct (Z.ltb_spec totalRead length); try lia; reflexivity.
Qed.

(** The timer's case is taken as soon as the loop comes round to its
    [select] with the instant [timeout] behind it. *)
Lemma readLoop_timeout (fuel timeout : nat) (length : Z) (data : list byte)
    (totalRead : Z) (c : conn) :
  totalRead < length -> (timeout <= now c)%nat ->
  readLoop (S fuel) timeout length data totalRead c =
    Returned (LoopReturn (SCAN_PROTOCOL_ERROR, None, Some errReadTimeout), c).
Proof.
  intros Hlt Ht. cbn [readLoop].
  destruct (Z.ltb_spec totalRead length); [| lia].
  destruct (Nat.leb_spec timeout (now c)); [reflexivity | lia].
Qed.

Lemma store_at_nil (data : list byte) (totalRead : Z) :
  store_at data totalRead [] = data.
Proof.
  unfold store_at. cbn [app List.length]. rewrite Nat.add_0_r.
  apply firstn_skipn.
Qed.

Lemma store_at_app (data g1 g2 : list byte) (totalRead : Z) :
  0 <= totalRead ->
  (Z.to_nat totalRead + List.length g1 <= List.length data)%nat ->
  store_at (store_at data totalRead g1)
           (totalRead + Z.of_nat (List.length g1)) g2 =
  store_at data totalRead (g1 ++ g2).
Proof.
  intros Ht Hfit. unfold store_at.
  replace (Z.to_nat (totalRead + Z.of_nat (List.length g1)))
    with (Z.to_nat totalRead + List.length g1)%nat by lia.
  set (t := Z.to_nat totalRead) in *.
  set (front := firstn t data ++ g1).
  assert (Hfront : List.length front = (t + List.length g1)%nat)
    by (unfold front; rewrite length_app, length_firstn; lia).
  rewrite (app_assoc (firstn t data) g1). fold front.
  rewrite firstn_app, Hfront, Nat.sub_diag. cbn [firstn].
  rewrite app_nil_r, (firstn_all2 front) by lia.
  rewrite skipn_app, Hfront.
  rewrite (skipn_all2 front) by lia. cbn [app].
  replace (t + List.length g1 + List.length g2 - (t + List.length g1))%nat
    with (List.length g2) by lia.
  rewrite skipn_skipn, length_app. unfold front.
  rewrite <- !app_assoc. do 3 f_equal. f_equal. lia.
Qed.

(** One iteration that meets a segment fitting the rest of the buffer. *)
Lemma readLoop_segment (fuel timeout : nat) (length : Z) (data : list byte)
    (totalRead : Z) (c : conn) (sg : segment) (rest : list (nat * event)) :
  incoming c = seg_event sg :: rest ->
  0 <= totalRead -> List.length data = Z.to_nat length ->
  totalRead + Z.of_nat (List.length (seg_bytes sg)) <= length ->
  (now c < timeout)%nat ->
  readLoop (S fuel) timeout length data totalRead c =
    readLoop fuel timeout length (store_at data totalRead (seg_bytes sg))
      (totalRead + Z.of_nat (List.length (seg_bytes sg)))
      (mkConn (now c + fst sg) rest (wresults c) (sent c) (closed c)).
Proof.
  intros Hinc Ht Hd Hfit Hnow. destruct sg as [w [b bs]].
  unfold seg_event, seg_bytes in *. cbn [fst snd] in *.
  cbn [readLoop].
  destruct (Z.ltb_spec totalRead length) as [_ | Hge];
    [| cbn [List.length] in Hfit; lia].
  destruct (Nat.leb_spec timeout (now c)) as [Hle | _]; [lia |].
  unfold Read. rewrite Hinc, length_skipn.
  rewrite firstn_all2 by lia.
  rewrite skipn_all2 by lia.
  reflexivity.
Qed.

(** One iteration that meets the end of the stream. *)
Lemma readLoop_eof (fuel timeout : nat) (length : Z) (data : list byte)
    (totalRead : Z) (c : conn) (w : nat) (rest : list (nat * event)) :
  incoming c = (w, Err io_EOF) :: rest ->
  totalRead < length -> (now c < timeout)%nat ->
  readLoop (S fuel) timeout length data totalRead c =
    Returned (LoopDone data totalRead,
              mkConn (now c + w) rest (wresults c) (sent c) (closed c)).
Proof.
  intros Hinc Hlt Hnow. cbn [readLoop].
  destruct (Z.ltb_spec totalRead length) as [_ | Hge]; [| lia].
  destruct (Nat.leb_spec timeout (now c)) as [Hle | _]; [lia |].
  unfold Read. rewrite Hinc. cbn [obind is_EOF].
  rewrite store_at_nil, Z.add_0_r. reflexivity.
Qed.

Lemma segs_length (segs : list segment) :
  (List.length segs <= List.length (segs_bytes segs))%nat.
Proof.
  induction segs as [| sg segs IH]; [apply Nat.le_refl |].
  unfold segs_bytes in *. cbn [flat_map List.length]. rewrite length_app.
  unfold seg_bytes at 1. cbn [List.length]. lia.
Qed.

(** Segments that do not fill the buffer, then the end of the stream. *)
Lemma readLoop_short (segs : list segment) :
  forall (fuel timeout : nat) (length : Z) (data : list byte) (totalRead : Z)
         (c : conn) (w : nat) (rest : list (nat * event)),
    incoming c = map seg_event segs ++ (w, Err io_EOF) :: rest ->
    0 <= totalRead -> List.length data = Z.to_nat length ->
    totalRead + Z.of_nat (List.length (segs_bytes segs)) < length ->
    (now c + segs_wait segs < timeout)%nat ->
    (List.length segs < fuel)%nat ->
    readLoop fuel timeout length data totalRead c =
      Returned (LoopDone (store_at data totalRead (segs_bytes segs))
                  (totalRead + Z.of_nat (List.length (segs_bytes segs))),
                mkConn (now c + segs_wait segs + w) rest
                  (wresults c) (sent c) (closed c)).
Proof.
  induction segs as [| sg segs IH];
    intros fuel timeout length data totalRead c w rest Hinc Ht Hd Hfit Hnow Hfuel;
    (destruct fuel as [| fuel]; [cbn in Hfuel; lia |]).
  - cbn [map app] in Hinc.
    change (segs_bytes []) with (@nil byte) in *.
    change (segs_wait []) with 0%nat in *. cbn [List.length] in *.
    rewrite (readLoop_eof _ _ _ _ _ _ _ _ Hinc) by lia.
    rewrite store_at_nil, Z.add_0_r, Nat.add_0_r. reflexivity.
  - cbn [map app] in Hinc.
    change (segs_bytes (sg :: segs)) with (seg_bytes sg ++ segs_bytes segs)
      in Hfit |- *.
    change (segs_wait (sg :: segs)) with (fst sg + segs_wait segs)%nat
      in Hnow |- *.
    rewrite length_app in Hfit |- *. cbn [List.length] in Hfuel.
    rewrite (readLoop_segment _ _ _ _ _ _ _ _ Hinc) by lia.
    rewrite (IH fuel timeout length _ _ _ w rest); cbn [now incoming];
      try reflexivity; try lia.
    + cbn [wresults sent closed]. rewrite store_at_app by lia.
      do 3 f_equal; [lia | f_equal; lia].
    + rewrite store_at_length; lia.
Qed.

Lemma skipn_zeros (n m : nat) :
  skipn n (repeat x00 m) = repeat x00 (m - n).
Proof.
  revert m. induction n as [| n IH]; intros [| m]; cbn; auto.
Qed.

Lemma store_at_fresh (length : Z) (got : list byte) :
  (List.length got <= Z.to_nat length)%nat ->
  store_at (make_bytes length) 0 got =
    got ++ repeat x00 (Z.to_nat length - List.length got).
Proof.
  intros H. unfold store_at, make_bytes. cbn [Z.to_nat firstn app Nat.add].
  f_equal. apply skipn_zeros.
Qed.

(** ** The short read *)

(** C1, as the code has it.  When round 1 decodes the length [length] in
    [1, 32800] and the peer delivers only k < [length] payload bytes, in
    time, before the end of the stream, the read loop ends without error and
    the scan goes on to round 2 with a buffer that still has [length] bytes:
    the k bytes read followed by [length - k] zero bytes; [Banner1] of a
    scan that then succeeds is the encoding of the whole buffer. *)
Theorem short_read_round1 (s : Scanner) (c0 c1 c : conn) (length : Z)
    (segs : list segment) (w : nat) (rest : list (nat * event)) :
  Write c0 (probe1 s) = (None, c1) ->
  readVarInt c1 = Returned ((length, None), c) ->
  1 <= length <= 32800 ->
  incoming c = map seg_event segs ++ (w, Err io_EOF) :: rest ->
  Z.of_nat (List.length (segs_bytes segs)) < length ->
  (segs_wait segs < 5 * Second)%nat ->
  let k := List.length (segs_bytes segs) in
  let data := segs_bytes segs ++ repeat x00 (Z.to_nat length - k) in
  let c' := mkConn (now c + segs_wait segs + w) rest
              (wresults c) (sent c) (closed c) in
  readLoop (Z.to_nat length) (time_After c (5 * Second)) length
    (make_bytes length) 0 c = Returned (LoopDone data (Z.of_nat k), c') /\
  Scan_conn s c0 = Scan_round2 s data c' /\
  List.length data = Z.to_nat length /\
  (forall st res err cf,
      Scan_round2 s data c' = Returned ((st, Some res, err), cf) ->
      Banner1 res = EncodeToString data).
Proof.
  intros HW HV Hr Hinc Hk Hwait k data c'.
  assert (HL : readLoop (Z.to_nat length) (time_After c (5 * Second)) length
                 (make_bytes length) 0 c =
               Returned (LoopDone data (Z.of_nat k), c')).
  { pose proof (segs_length segs) as Hsl.
    rewrite (readLoop_short segs _ _ _ _ _ _ w rest Hinc);
      try (unfold time_After; lia); [| apply make_bytes_length].
    rewrite store_at_fresh by (fold k; lia). reflexivity. }
  split; [exact HL |]. split; [| split].
  - unfold Scan_conn. rewrite HW, HV. cbn [obind].
    destruct (Z.gtb_spec length 32800); [lia |].
    destruct (Z.ltb_spec length 1); [lia |].
    unfold Scan_round1_read. rewrite HL. reflexivity.
  - unfold data. rewrite length_app, repeat_length. fold k. lia.
  - intros st res err cf H.
    apply Scan_round2_inv in H as [(st' & e & Heq & _) | (data2 & _ & Heq)];
      [discriminate Heq |].
    injection Heq as _ -> _. reflexivity.
Qed.

Lemma short_read_round1_witness :
  1 <= 10 <= 32800 /\
  Z.of_nat (List.length [x01; x02; x03; x04; x05]) < 10 /\
  (2 + 3 < 5 * Second)%nat /\
  Scan_conn demo_scanner (demo_conn short_answer) =
    Scan_round2 demo_scanner
      [x01; x02; x03; x04; x05; x00; x00; x00; x00; x00]
      (mkConn 7 [(0%nat, Err io_EOF)] [] [[x0a]] false).
Proof.
  assert (H1 : 1 <= 10 <= 32800) by lia.
  assert (H2 : Z.of_nat (List.length [x01; x02; x03; x04; x05]) < 10)
    by (cbn; lia).
  assert (H3 : (2 + 3 < 5 * Second)%nat) by (unfold Second; lia).
  split; [exact H1 |]. split; [exact H2 |]. split; [exact H3 |].
  exact (proj1 (proj2 (short_read_round1 demo_scanner
           (demo_conn short_answer)
           (mkConn 0 short_answer [] [[x0a]] false)
           (mkConn 1 (tl short_answer) [] [[x0a]] false)
           10 [(2%nat, (x01, [x02; x03])); (3%nat, (x04, [x05]))] 1%nat
           [(0%nat, Err io_EOF)] eq_refl eq_refl H1 eq_refl H2 H3))).
Defined.

(** C1 as the spec states it fails.  The peer announces 10 bytes, sends 5
    and closes: the read loop ends without error, but the buffer it leaves,
    which round 2 receives and [Scan] encodes, has 10 bytes and not the 5
    that were read, and its encoding is not the encoding of these 5. *)
Lemma short_read_counterexample :
  let c2 := mkConn 1 (tl short_answer) [] [[x0a]] false in
  let c3 := mkConn 7 [(0%nat, Err io_EOF)] [] [[x0a]] false in
  let read := [x01; x02; x03; x04; x05] in
  let data := [x01; x02; x03; x04; x05; x00; x00; x00; x00; x00] in
  readVarInt (mkConn 0 short_answer [] [[x0a]] false) =
    Returned ((10, None), c2) /\
  readLoop (Z.to_nat 10) (time_After c2 (5 * Second)) 10 (make_bytes 10) 0 c2 =
    Returned (LoopDone data 5, c3) /\
  Scan_conn demo_scanner (demo_conn short_answer) =
    Scan_round2 demo_scanner data c3 /\
  data <> read /\
  EncodeToString data = "01020304050000000000"%string /\
  EncodeToString data <> EncodeToString read.
Proof.
  cbv zeta. repeat split; try reflexivity; discriminate.
Qed.

(** On a connection that reports the end of the stream once and still
    answers the second probe, the padded buffer is what comes out as
    [Banner1]. *)
Example short_read_banner :
  Scan demo_scanner
    (mkTarget (inl (demo_conn
       [(1%nat, Recv x0a [x01; x02; x03; x04; x05]); (1%nat, Err io_EOF);
        (1%nat, Recv x09 [x11; x12; x13; x14; x15; x16; x17; x18; x19])]))) =
  Returned ((SCAN_SUCCESS,
             Some (mkResults "01020304050000000000" "111213141516171819"),
             None),
            Some (mkConn 3 [] [] [[x0a]; [x0a]] true)).
Proof. reflexivity. Qed.

(** ** Banners *)

(** A round whose probe is answered by a one-byte length and exactly that
    many bytes goes through, however long the peer takes to answer. *)
Lemma round_ok_answer (probe : list byte) (check : Z -> bool) (c : conn)
    (w w' : nat) (v a : byte) (p : list byte) (coalesced : bool)
    (rest : list (nat * event)) :
  wresults c = [] ->
  incoming c = answer w w' v a p coalesced ++ rest ->
  continues v = false ->
  byte_val v = Z.of_nat (List.length (a :: p)) ->
  check (byte_val v) = true ->
  exists c', round_ok probe check c (a :: p) c' /\
             wresults c' = [] /\ incoming c' = rest.
Proof.
  intros Hw Hinc Hv Hlen Hck.
  pose (c1 := mkConn (now c) (incoming c) [] (sent c ++ [probe]) (closed c)).
  assert (HW : Write c probe = (None, c1)) by (unfold Write; rewrite Hw; reflexivity).
  assert (HV : exists c2,
             readVarInt c1 = Returned ((byte_val v, None), c2) /\
             wresults c2 = [] /\
             exists w2, incoming c2 = (w2, Recv a p) :: rest).
  { unfold readVarInt, maxBytes. cbn [readVarInt_loop]. unfold Read.
    cbn [incoming c1]. rewrite Hinc.
    unfold continues in Hv. apply negb_false_iff in Hv.
    destruct coalesced; cbn [answer app firstn skipn obind nth];
      rewrite Hv, Z.shiftl_0_r, Z.lor_0_l, int_wrap_small, (clear_flag_value v)
        by (try (unfold continues; rewrite Hv; reflexivity);
            pose proof (group_range v); lia);
      eexists; (split; [reflexivity |]); cbn [wresults incoming];
      (split; [reflexivity |]); eexists; reflexivity. }
  destruct HV as (c2 & HV & Hw2 & w2 & Hinc2).
  assert (Hpos : 0 <= byte_val v) by lia.
  exists (mkConn (now c2 + w2) rest (wresults c2) (sent c2) (closed c2)).
  split; [| cbn [wresults incoming]; auto].
  exists c1, (byte_val v), c2, (byte_val v).
  split; [exact HW |]. split; [exact HV |]. split; [exact Hck |].
  assert (Hn : Z.to_nat (byte_val v) = S (List.length p))
    by (rewrite Hlen; cbn [List.length]; lia).
  rewrite Hn.
  rewrite (readLoop_segment _ _ _ _ _ _ (w2, (a, p)) rest Hinc2);
    unfold seg_bytes; cbn [fst snd];
    [| lia | apply make_bytes_length | lia | unfold time_After, Second; lia].
  rewrite readLoop_done by lia.
  rewrite store_at_fresh by lia.
  rewrite Hlen, Nat2Z.id, Nat.sub_diag. cbn [repeat].
  rewrite app_nil_r, Z.add_0_l. reflexivity.
Qed.

Lemma Results_json_omitempty (r : Results) :
  (Banner1 r = ""%string -> ~ In "banner1"%string (map fst (Results_json r))) /\
  (Banner2 r = ""%string -> ~ In "banner2"%string (map fst (Results_json r))).
Proof.
  unfold Results_json.
  split; intros H; rewrite H; cbn [String.eqb app];
    [destruct (String.eqb (Banner2 r) "") | destruct (String.eqb (Banner1 r) "")];
    cbn [app map fst In]; intuition discriminate.
Qed.

(** C8. The banners of a successful scan are the lowercase hexadecimal
    encodings of the buffers of round 1 and round 2: two digits per byte
    that read back as the byte's value; the empty buffer encodes as the
    empty string, which the serialized record leaves out; and when the peer
    answers the first probe with the byte 0x05 and 5 bytes and the second
    with the byte 0x09 and 9 bytes, the scan succeeds with the encodings of
    these 5 and 9 bytes as its banners. *)
Theorem banners_are_hex :
  (forall (s : Scanner) (target : ScanTarget) (st : ScanStatus) (res : Results)
          (err : option error) (oc : option conn),
      Scan s target = Returned ((st, Some res, err), oc) ->
      exists data data2,
        scan_rounds_ok s target data data2 /\
        Banner1 res = EncodeToString data /\
        Banner2 res = EncodeToString data2) /\
  (forall src : list byte,
      decode_lower (EncodeToString src) = Some (map byte_val src) /\
      String.length (EncodeToString src) = (2 * List.length src)%nat) /\
  (EncodeToString [] = ""%string /\
   forall r : Results,
     (Banner1 r = ""%string -> ~ In "banner1"%string (map fst (Results_json r))) /\
     (Banner2 r = ""%string -> ~ In "banner2"%string (map fst (Results_json r)))) /\
  (forall (s : Scanner) (t0 : nat) (sent0 : list (list byte))
          (w1 w1' w2 w2' : nat) (k1 k2 : bool)
          (a : byte) (p1 : list byte) (b : byte) (p2 : list byte),
      List.length p1 = 4%nat -> List.length p2 = 8%nat ->
      exists oc,
        Scan s (mkTarget (inl (mkConn t0
                  (answer w1 w1' x05 a p1 k1 ++ answer w2 w2' x09 b p2 k2)
                  [] sent0 false))) =
        Returned ((SCAN_SUCCESS,
                   Some (mkResults (EncodeToString (a :: p1))
                                   (EncodeToString (b :: p2))),
                   None), oc)).
Proof.
  split; [| split; [exact EncodeToString_lower | split]].
  - intros s target st res err oc H.
    apply Scan_inv in H as [(st' & e & Heq & _) | (data & data2 & Hok & Heq)];
      [discriminate Heq |].
    injection Heq as _ -> _. exists data, data2. auto.
  - split; [reflexivity | exact Results_json_omitempty].
  - intros s t0 sent0 w1 w1' w2 w2' k1 k2 a p1 b p2 H1 H2.
    set (c := mkConn t0 _ [] sent0 false).
    destruct (round_ok_answer (probe1 s) check1 c w1 w1' x05 a p1 k1
                (answer w2 w2' x09 b p2 k2))
      as (cm & Hr1 & Hwm & Hincm);
      try reflexivity; [cbn [List.length]; rewrite H1; reflexivity |].
    destruct (round_ok_answer (probe2 s) check2 cm w2 w2' x09 b p2 k2 [])
      as (c' & Hr2 & _);
      try reflexivity; try assumption;
      [rewrite app_nil_r; exact Hincm
      | cbn [List.length]; rewrite H2; reflexivity |].
    apply Scan_complete. exists c, cm, c'. auto.
Qed.

Lemma banners_are_hex_witness :
  List.length [x02; x03; x04; x05] = 4%nat /\
  List.length [x12; x13; x14; x15; x16; x17; x18; x19] = 8%nat /\
  exists oc,
    Scan demo_scanner (mkTarget (inl (demo_conn two_answers))) =
    Returned ((SCAN_SUCCESS,
               Some (mkResults "0102030405" "111213141516171819"),
               None), oc).
Proof.
  split; [reflexivity |]. split; [reflexivity |].
  exact (proj2 (proj2 (proj2 banners_are_hex)) demo_scanner 0%nat []
           3%nat 0%nat 4%nat 0%nat true true
           x01 [x02; x03; x04; x05] x11 [x12; x13; x14; x15; x16; x17; x18; x19]
           eq_refl eq_refl).
Defined.

(** ** The read deadline *)

(** C5 at a peer that stalls.  The peer answers the first probe, sends the
    length byte 9 of its second answer and only six seconds later the 9
    bytes: the timer of the second read phase runs out while [Read] blocks
    with nothing read, and still the loop ends normally and [Scan] returns
    both banners with the success status, not a read timeout.  When the
    peer never sends the 9 bytes, [Scan] does not return at all. *)
Theorem read_deadline_not_enforced :
  let c5 := mkConn 2 [((6 * Second)%nat, Recv x11 [x12; x13; x14; x15; x16; x17; x18; x19])]
              [] [[x0a]; [x0a]] false in
  let c6 := mkConn (2 + 6 * Second) [] [] [[x0a]; [x0a]] false in
  readLoop (Z.to_nat 9) (time_After c5 (5 * Second)) 9 (make_bytes 9) 0 c5 =
    Returned (LoopDone [x11; x12; x13; x14; x15; x16; x17; x18; x19] 9, c6) /\
  (time_After c5 (5 * Second) < now c6)%nat /\
  Scan demo_scanner (mkTarget (inl (demo_conn late_payload))) =
    Returned ((SCAN_SUCCESS,
               Some (mkResults "0102030405" "111213141516171819"), None),
              Some (Close c6)) /\
  Scan demo_scanner (mkTarget (inl (demo_conn (firstn 2 late_payload)))) =
    Blocked.
Proof.
  cbv zeta. split; [vm_compute; reflexivity |].
  split; [apply Nat.ltb_lt; vm_compute; reflexivity |].
  split; vm_compute; reflexivity.
Qed.

(** * Further properties of the scanner *)

(** ** What the reads leave alone *)

Lemma Read_frame (c c1 : conn) (cap : nat) (n : Z) (got : list byte)
    (err : option error) :
  Read c cap = Returned ((n, got, err), c1) ->
  sent c1 = sent c /\ wresults c1 = wresults c /\ closed c1 = closed c /\
  bytes_in (incoming c) = (List.length got + bytes_in (incoming c1))%nat /\
  (forall e, err = Some e -> exists w, In (w, Err e) (incoming c)).
Proof.
  unfold Read. destruct (incoming c) as [| [wait [b bs | e]] rest]; intros H;
    try discriminate.
  - assert (Hg : firstn cap (b :: bs) = got) by congruence.
    assert (He : None = err) by congruence.
    assert (Hc : c1 = mkConn (now c + wait)
                        match skipn cap (b :: bs) with
                        | [] => rest
                        | b' :: bs' => (0%nat, Recv b' bs') :: rest
                        end (wresults c) (sent c) (closed c)) by congruence.
    subst c1 got err. cbn [sent wresults closed incoming].
    repeat split; try discriminate.
    pose proof (firstn_skipn cap (b :: bs)) as Hfs.
    apply (f_equal (@List.length byte)) in Hfs. rewrite length_app in Hfs.
    cbn [bytes_in].
    destruct (skipn cap (b :: bs)) as [| b' bs']; cbn [bytes_in List.length] in *;
      lia.
  - assert (Hg : [] = got) by congruence.
    assert (He : Some e = err) by congruence.
    assert (Hc : c1 = mkConn (now c + wait) rest (wresults c) (sent c) (closed c))
      by congruence.
    subst c1 got err. cbn [sent wresults closed incoming bytes_in List.length].
    repeat split. intros e' He'. injection He' as <-.
    exists wait. left. reflexivity.
Qed.

Lemma readVarInt_loop_frame (remaining : nat) :
  forall (result shift : Z) (c c1 : conn) (r : Z * option error),
    readVarInt_loop remaining result shift c = Returned (r, c1) ->
    sent c1 = sent c /\ wresults c1 = wresults c /\ closed c1 = closed c /\
    (now c <= now c1)%nat /\
    exists k, (k <= remaining)%nat /\
              bytes_in (incoming c) = (k + bytes_in (incoming c1))%nat.
Proof.
  induction remaining as [| remaining IH]; intros result shift c c1 r H.
  - injection H as _ <-. repeat split; auto. exists 0%nat. split; lia.
  - cbn [readVarInt_loop] in H.
    destruct (Read c 1) as [[[[n bts] err] c'] | |] eqn:HR; cbn [obind] in H;
      try discriminate.
    pose proof (Read_spec _ _ _ _ _ _ HR) as (_ & Hcap & _ & Hnow).
    pose proof (Read_frame _ _ _ _ _ _ HR) as (Hs & Hw & Hc & Hb & _).
    destruct err as [e |].
    + injection H as _ <-. repeat split; auto.
      exists (List.length bts). split; lia.
    + destruct (Z.land _ _ =? 0).
      * injection H as _ <-. repeat split; auto.
        exists (List.length bts). split; lia.
      * apply IH in H as (Hs' & Hw' & Hc' & Hnow' & k & Hk & Hb').
        repeat split; try congruence; try lia.
        exists (List.length bts + k)%nat. split; lia.
Qed.

Lemma Write_frame (c c1 : conn) (p : list byte) (r : option error) :
  Write c p = (r, c1) ->
  incoming c1 = incoming c /\ now c1 = now c /\ closed c1 = closed c /\
  sent c1 = match r with None => sent c ++ [p] | Some _ => sent c end.
Proof.
  unfold Write. destruct (wresults c) as [| [e |] ws]; intros H;
    injection H as <- <-; auto.
Qed.

Lemma Read_errors_kept (c c1 : conn) (cap : nat) (r : read_result) :
  Read c cap = Returned (r, c1) ->
  forall w e, In (w, Err e) (incoming c1) -> In (w, Err e) (incoming c).
Proof.
  unfold Read. destruct (incoming c) as [| [wait [b bs | e0]] rest]; intros H;
    try discriminate; injection H as _ <-; cbn [incoming]; intros w e Hin.
  - right. destruct (skipn cap (b :: bs)); [exact Hin |].
    destruct Hin as [Hin | Hin]; [discriminate Hin | exact Hin].
  - right. exact Hin.
Qed.

(** What a read loop leaves alone, how much it takes and how it can fail. *)
Lemma readLoop_frame (fuel : nat) :
  forall (timeout : nat) (length : Z) (data : list byte) (totalRead : Z)
         (c c1 : conn) (ex : loop_exit),
    List.length data = Z.to_nat length -> 0 <= totalRead ->
    readLoop fuel timeout length data totalRead c = Returned (ex, c1) ->
    sent c1 = sent c /\ wresults c1 = wresults c /\ closed c1 = closed c /\
    (now c <= now c1)%nat /\
    (bytes_in (incoming c) <=
     bytes_in (incoming c1) + Z.to_nat (length - totalRead))%nat /\
    (bytes_in (incoming c1) <= bytes_in (incoming c))%nat /\
    match ex with
    | LoopDone _ _ => True
    | LoopReturn r =>
        (r = (SCAN_PROTOCOL_ERROR, None, Some errReadTimeout) /\
         (timeout <= now c1)%nat) \/
        (exists e, r = (TryGetScanStatus e, None, Some e) /\
                   is_EOF e = false /\
                   exists w, In (w, Err e) (incoming c))
    end.
Proof.
  induction fuel as [| fuel IH];
    intros timeout length data totalRead c c1 ex Hd Ht H;
    cbn [readLoop] in H; destruct (Z.ltb_spec totalRead length) as [Hlt | Hge];
    try discriminate;
    try (injection H as <- <-; repeat split; auto; lia).
  destruct (Nat.leb_spec timeout (now c)) as [Hle | Hgt].
  { injection H as <- <-. repeat split; auto; try lia. }
  destruct (Read c _) as [[[[n got] err] c'] | |] eqn:HR; cbn [obind] in H;
    try discriminate.
  pose proof (Read_spec _ _ _ _ _ _ HR) as (Hn & Hcap & Hpos & Hnow).
  pose proof (Read_frame _ _ _ _ _ _ HR) as (Hs & Hw & Hc & Hb & Herr).
  rewrite length_skipn in Hcap.
  destruct err as [e |].
  - destruct (is_EOF e) eqn:He; injection H as <- <-;
      repeat split; auto; try lia.
    right. exists e. repeat split; auto.
  - pose proof (Read_errors_kept _ _ _ _ HR) as Hkept.
    apply IH in H as (Hs' & Hw' & Hc' & Hnow' & Hb' & Hb'' & Hex);
      [| rewrite store_at_length; lia | lia].
    repeat split; try congruence; try lia.
    destruct ex as [d tr | r]; [exact I |].
    destruct Hex as [Hto | (e & Hr & He & w & Hin)]; [left; exact Hto |].
    right. exists e. repeat split; auto. exists w. apply Hkept. exact Hin.
Qed.

(** ** More on the varint decoder *)

Lemma Read_error_empty (c c1 : conn) (cap : nat) (n : Z) (got : list byte)
    (e : error) :
  Read c cap = Returned ((n, got, Some e), c1) -> got = [].
Proof.
  unfold Read. destruct (incoming c) as [| [wait [b bs | e0]] rest]; intros H;
    try discriminate. congruence.
Qed.

Lemma readVarInt_loop_error_origin (remaining : nat) :
  forall (result shift v : Z) (e : error) (c c1 : conn),
    readVarInt_loop remaining result shift c = Returned ((v, Some e), c1) ->
    (e = errVarintTooLong /\
     bytes_in (incoming c) = (remaining + bytes_in (incoming c1))%nat) \/
    (exists w, In (w, Err e) (incoming c)) /\
    exists k, (k < remaining)%nat /\
              bytes_in (incoming c) = (k + bytes_in (incoming c1))%nat.
Proof.
  induction remaining as [| remaining IH]; intros result shift v e c c1 H.
  - injection H as _ <- <-. left. auto.
  - cbn [readVarInt_loop] in H.
    destruct (Read c 1) as [[[[n bts] err] c'] | |] eqn:HR; cbn [obind] in H;
      try discriminate.
    pose proof (Read_spec _ _ _ _ _ _ HR) as (_ & Hcap & Hpos & _).
    pose proof (Read_frame _ _ _ _ _ _ HR) as (_ & _ & _ & Hb & Herr).
    destruct err as [e' |].
    + injection H as _ <- <-. right. split; [apply Herr; reflexivity |].
      exists 0%nat. split; [lia |].
      rewrite (Read_error_empty _ _ _ _ _ _ HR) in Hb. exact Hb.
    + specialize (Hpos eq_refl (le_n 1)).
      destruct (Z.land _ _ =? 0); [discriminate |].
      apply IH in H as [[-> Hb'] | [[w Hin] (k & Hk & Hb')]].
      * left. split; [reflexivity | lia].
      * right. split; [exists w; exact (Read_errors_kept _ _ _ _ HR _ _ Hin) |].
        exists (S k). split; lia.
Qed.

(** X1. An error returned by [readVarInt] is either its own "varint too
    long", after exactly five bytes were taken off the stream, or an error
    the connection's [Read] reported, after at most four bytes. *)
Theorem readVarInt_error_origin (c c1 : conn) (v : Z) (e : error) :
  readVarInt c = Returned ((v, Some e), c1) ->
  (e = errVarintTooLong /\
   bytes_in (incoming c) = (5 + bytes_in (incoming c1))%nat) \/
  ((exists w, In (w, Err e) (incoming c)) /\
   (bytes_in (incoming c) <= 4 + bytes_in (incoming c1))%nat).
Proof.
  intros H. apply readVarInt_loop_error_origin in H
    as [H | [Hin (k & Hk & Hb)]]; [left; exact H | right].
  split; [exact Hin | unfold maxBytes in Hk; lia].
Qed.

Lemma readVarInt_error_origin_witness :
  (io_EOF = errVarintTooLong /\ 2 = 5 + 0)%nat \/
  ((exists w, In (w, Err io_EOF)
                [(1%nat, Recv x80 [x81]); (2%nat, Err io_EOF)]) /\
   (2 <= 4 + 0)%nat).
Proof.
  exact (readVarInt_error_origin
           (demo_conn [(1%nat, Recv x80 [x81]); (2%nat, Err io_EOF)])
           (mkConn 3 [] [] [] false) 0 io_EOF eq_refl).
Defined.

(** X2. Whatever it returns, [readVarInt] writes nothing, leaves the
    connection open, never turns the clock back and takes at most five bytes
    off the stream. *)
Theorem readVarInt_frame (c c1 : conn) (r : Z * option error) :
  readVarInt c = Returned (r, c1) ->
  sent c1 = sent c /\ wresults c1 = wresults c /\ closed c1 = closed c /\
  (now c <= now c1)%nat /\
  (bytes_in (incoming c1) <= bytes_in (incoming c) <=
   5 + bytes_in (incoming c1))%nat.
Proof.
  intros H. apply readVarInt_loop_frame in H
    as (Hs & Hw & Hc & Hn & k & Hk & Hb).
  unfold maxBytes in Hk. repeat split; auto; lia.
Qed.

Lemma readVarInt_frame_witness :
  sent (mkConn 3 [(0%nat, Recv x07 [])] [] [] false) = [] /\
  (0 <= 3)%nat /\ (1 <= 3 <= 5 + 1)%nat.
Proof.
  destruct (readVarInt_frame (demo_conn [(3%nat, Recv xac [x02; x07])])
              (mkConn 3 [(0%nat, Recv x07 [])] [] [] false) (300, None) eq_refl)
    as (Hs & _ & _ & Hn & Hb).
  exact (conj Hs (conj Hn Hb)).
Defined.

Lemma varint_sum_app (a b : list byte) :
  forall i, varint_sum i (a ++ b) =
            varint_sum i a + varint_sum (i + Z.of_nat (List.length a)) b.
Proof.
  induction a as [| x a IH]; intros i; cbn [app varint_sum List.length].
  - rewrite Z.add_0_r. reflexivity.
  - rewrite IH. replace (i + 1 + Z.of_nat (List.length a))
      with (i + Z.of_nat (S (List.length a))) by lia.
    lia.
Qed.

(** X3. The decoder accepts encodings that are longer than needed: setting
    the continuation bit of the last byte of a varint of at most four bytes
    and appending a zero byte gives a stream that decodes to the same
    value, with one more byte consumed. *)
Theorem readVarInt_overlong (c c' : conn) (pre : list byte) (l l' : byte)
    (tl tl' : list byte) :
  (List.length pre <= 3)%nat ->
  forallb continues pre = true ->
  continues l = false -> continues l' = true ->
  Z.land (byte_val l') 0x7F = Z.land (byte_val l) 0x7F ->
  pending (incoming c) = pre ++ [l] ++ tl ->
  pending (incoming c') = pre ++ [l'; x00] ++ tl' ->
  exists v c1 c1',
    readVarInt c = Returned ((v, None), c1) /\
    readVarInt c' = Returned ((v, None), c1') /\
    pending (incoming c1) = tl /\ pending (incoming c1') = tl'.
Proof.
  intros Hlen Hpre Hl Hl' Hsame Hp Hp'.
  destruct (readVarInt_loop_value pre l tl maxBytes 0 0 c)
    as (c1 & H & Hp1 & _); try assumption; unfold maxBytes; try lia.
  destruct (readVarInt_loop_value (pre ++ [l']) x00 tl' maxBytes 0 0 c')
    as (c1' & H' & Hp1' & _); unfold maxBytes;
    try (rewrite length_app; cbn [List.length]; lia); try lia;
    try reflexivity.
  { rewrite forallb_app, Hpre. cbn [forallb]. rewrite Hl'. reflexivity. }
  { rewrite <- app_assoc. exact Hp'. }
  exists (varint_sum 0 (pre ++ [l])), c1, c1'.
  split; [exact H |]. split; [| auto].
  unfold readVarInt. fold maxBytes in H'. change (7 * 0) with 0 in H'.
  rewrite H'. do 3 f_equal.
  rewrite !varint_sum_app. cbn [varint_sum]. rewrite Hsame.
  change (Z.land (byte_val x00) 127) with 0. rewrite Z.shiftl_0_l. lia.
Qed.

Lemma readVarInt_overlong_witness :
  (List.length [xac] <= 3)%nat /\
  forallb continues [xac] = true /\
  continues x02 = false /\ continues x82 = true /\
  Z.land (byte_val x82) 0x7F = Z.land (byte_val x02) 0x7F /\
  exists v c1 c1',
    readVarInt (demo_conn [(0%nat, Recv xac [x02])]) = Returned ((v, None), c1) /\
    readVarInt (demo_conn [(0%nat, Recv xac [x82; x00])]) =
      Returned ((v, None), c1') /\
    pending (incoming c1) = [] /\ pending (incoming c1') = [].
Proof.
  split; [exact (le_S _ _ (le_S _ _ (le_n 1))) |].
  repeat (split; [reflexivity |]).
  exact (readVarInt_overlong
           (demo_conn [(0%nat, Recv xac [x02])])
           (demo_conn [(0%nat, Recv xac [x82; x00])])
           [xac] x02 x82 [] [] (le_S _ _ (le_S _ _ (le_n 1)))
           eq_refl eq_refl eq_refl eq_refl eq_refl eq_refl).
Defined.

(** ** More on the encoding *)

Lemma byte_val_inj (a b : byte) : byte_val a = byte_val b -> a = b.
Proof.
  unfold byte_val. intros H. apply N2Z.inj in H.
  pose proof (of_to_N a) as Ha. rewrite H, of_to_N in Ha. congruence.
Qed.

Lemma EncodeToString_app (a b : list byte) :
  EncodeToString (a ++ b) = (EncodeToString a ++ EncodeToString b)%string.
Proof.
  induction a as [| v a IH]; cbn [app EncodeToString String.append];
    [reflexivity | rewrite IH; reflexivity].
Qed.

(** X11. The encoding loses nothing: buffers with the same encoding are the
    same buffer; and the encoding of a concatenation is the concatenation
    of the encodings. *)
Theorem EncodeToString_injective :
  (forall a b : list byte, EncodeToString a = EncodeToString b -> a = b) /\
  (forall a b : list byte,
      EncodeToString (a ++ b) = (EncodeToString a ++ EncodeToString b)%string).
Proof.
  split; [| exact EncodeToString_app].
  intros a b H.
  pose proof (proj1 (EncodeToString_lower a)) as Ha.
  pose proof (proj1 (EncodeToString_lower b)) as Hb.
  rewrite H, Hb in Ha. injection Ha as Hm. clear H Hb.
  revert b Hm. induction a as [| x a IH]; intros [| y b] Hm;
    try discriminate; [reflexivity |].
  cbn [map] in Hm. injection Hm as Hx Hm.
  f_equal; [symmetry; apply byte_val_inj; exact Hx | apply IH; exact Hm].
Qed.

Lemma EncodeToString_injective_witness :
  [x01; xff] = [x01; xff].
Proof.
  exact (proj1 EncodeToString_injective [x01; xff] [x01; xff] eq_refl).
Defined.

(** ** What the read loop puts in the buffer *)

Lemma Read_pending (c c1 : conn) (cap : nat) (n : Z) (got : list byte)
    (err : option error) :
  Read c cap = Returned ((n, got, err), c1) ->
  match err with
  | None => pending (incoming c) = got ++ pending (incoming c1)
  | Some _ => pending (incoming c) = []
  end.
Proof.
  unfold Read. destruct (incoming c) as [| [wait [b bs | e]] rest]; intros H;
    try discriminate.
  - assert (Hg : firstn cap (b :: bs) = got) by congruence.
    assert (He : None = err) by congruence.
    injection H as _ _ _ <-. subst got err. cbn [incoming pending].
    change (b :: bs ++ pending rest) with ((b :: bs) ++ pending rest).
    rewrite <- (firstn_skipn cap (b :: bs)) at 1. rewrite <- app_assoc.
    f_equal. destruct (skipn cap (b :: bs)); reflexivity.
  - assert (He : Some e = err) by congruence. subst err. reflexivity.
Qed.

Lemma store_at_firstn (data got : list byte) (totalRead : Z) :
  (Z.to_nat totalRead + List.length got <= List.length data)%nat ->
  firstn (Z.to_nat totalRead + List.length got) (store_at data totalRead got) =
    firstn (Z.to_nat totalRead) data ++ got.
Proof.
  intros Hfit. unfold store_at. set (t := Z.to_nat totalRead) in *.
  rewrite app_assoc.
  assert (Hf : List.length (firstn t data ++ got) = (t + List.length got)%nat)
    by (rewrite length_app, length_firstn; lia).
  rewrite firstn_app, Hf, Nat.sub_diag. cbn [firstn].
  rewrite app_nil_r. apply firstn_all2. lia.
Qed.

Lemma store_at_skipn (data got : list byte) (totalRead : Z) (j : nat) :
  (Z.to_nat totalRead + List.length got <= List.length data)%nat ->
  skipn (Z.to_nat totalRead + List.length got + j) (store_at data totalRead got) =
    skipn (Z.to_nat totalRead + List.length got + j) data.
Proof.
  intros Hfit. unfold store_at. set (t := Z.to_nat totalRead) in *.
  rewrite app_assoc.
  assert (Hf : List.length (firstn t data ++ got) = (t + List.length got)%nat)
    by (rewrite length_app, length_firstn; lia).
  rewrite skipn_app, Hf.
  rewrite (skipn_all2 (firstn t data ++ got)) by lia. cbn [app].
  replace (t + List.length got + j - (t + List.length got))%nat with j by lia.
  rewrite skipn_skipn. f_equal. lia.
Qed.

Lemma readLoop_buffer (fuel : nat) :
  forall (timeout : nat) (length : Z) (data : list byte) (totalRead : Z)
         (c c1 : conn) (data' : list byte) (tr : Z),
    List.length data = Z.to_nat length -> 0 <= totalRead ->
    readLoop fuel timeout length data totalRead c =
      Returned (LoopDone data' tr, c1) ->
    let t := Z.to_nat totalRead in
    let m := Nat.min (Z.to_nat length - t) (List.length (pending (incoming c))) in
    tr = totalRead + Z.of_nat m /\
    data' = firstn t data ++ firstn m (pending (incoming c)) ++ skipn (t + m) data /\
    ((Z.to_nat length - t <= List.length (pending (incoming c)))%nat ->
     pending (incoming c1) = skipn m (pending (incoming c))).
Proof.
  induction fuel as [| fuel IH];
    intros timeout length data totalRead c c1 data' tr Hd Ht H t m;
    cbn [readLoop] in H; destruct (Z.ltb_spec totalRead length) as [Hlt | Hge];
    try discriminate.
  1, 3: assert (Hm : m = 0%nat) by (unfold m, t; lia);
    rewrite Hm; injection H as <- <- <-; cbn [firstn app skipn];
    rewrite Nat.add_0_r, firstn_skipn; split; [lia | split; reflexivity].
  destruct (timeout <=? now c)%nat; [discriminate |].
  destruct (Read c _) as [[[[n got] err] c'] | |] eqn:HR; cbn [obind] in H;
    try discriminate.
  pose proof (Read_spec _ _ _ _ _ _ HR) as (Hn & Hcap & Hpos & _).
  pose proof (Read_pending _ _ _ _ _ _ HR) as Hpend.
  rewrite length_skipn in Hcap. fold t in Hcap.
  destruct err as [e |].
  - rewrite (Read_error_empty _ _ _ _ _ _ HR) in *.
    destruct (is_EOF e); [| discriminate].
    injection H as <- <- _. unfold m. rewrite Hpend. cbn [List.length] in *.
    rewrite Nat.min_0_r, store_at_nil. cbn [firstn app].
    rewrite Nat.add_0_r, firstn_skipn.
    split; [lia | split; [reflexivity | intros Hav; unfold t in Hav; lia]].
  - apply IH in H as (Htr & Hdata & Hleft);
      [| rewrite store_at_length; lia | lia].
    replace (Z.to_nat (totalRead + n)) with (t + List.length got)%nat
      in Htr, Hdata, Hleft by lia.
    set (m1 := Nat.min (Z.to_nat length - (t + List.length got))
                 (List.length (pending (incoming c')))) in *.
    assert (Hm : m = (List.length got + m1)%nat)
      by (unfold m, m1; rewrite Hpend, length_app; lia).
    rewrite Hm. split; [lia |]. split.
    + rewrite Hdata. unfold t. rewrite store_at_firstn by (fold t; lia).
      rewrite store_at_skipn by (fold t; lia).
      rewrite Hpend, firstn_app_2, <- !app_assoc.
      rewrite Nat.add_assoc. reflexivity.
    + intros Hav. rewrite Hpend, length_app in Hav.
      rewrite Hleft by lia. rewrite Hpend, skipn_app.
      rewrite (skipn_all2 got) by lia. cbn [app]. f_equal. lia.
Qed.

(** X4. However the peer's data is cut into segments and whenever it
    arrives, a read loop that ends normally on a buffer of [length] fresh
    bytes has taken min([length], available) bytes, where available counts
    the bytes the stream holds before its first error: the buffer is the
    first [length] available bytes, followed by zero bytes when fewer were
    available; and when [length] bytes were available the stream is left
    just behind them, so nothing of what follows is lost to the next read. *)
Theorem read_loop_buffer (fuel timeout : nat) (length : Z) (c c1 : conn)
    (data' : list byte) (tr : Z) :
  0 <= length ->
  readLoop fuel timeout length (make_bytes length) 0 c =
    Returned (LoopDone data' tr, c1) ->
  let avail := pending (incoming c) in
  tr = Z.of_nat (Nat.min (Z.to_nat length) (List.length avail)) /\
  data' = firstn (Z.to_nat length) avail ++
          repeat x00 (Z.to_nat length - List.length avail) /\
  ((Z.to_nat length <= List.length avail)%nat ->
   pending (incoming c1) = skipn (Z.to_nat length) avail).
Proof.
  intros Hl H avail.
  apply readLoop_buffer in H as (Htr & Hdata & Hleft);
    [| apply make_bytes_length | lia].
  cbn [Z.to_nat firstn app Nat.add] in Htr, Hdata, Hleft.
  rewrite Nat.sub_0_r in Htr, Hdata, Hleft. fold avail in Htr, Hdata, Hleft.
  split; [lia |].
  split; [| intros Hav; rewrite (Hleft Hav), Nat.min_l by exact Hav; reflexivity].
  rewrite Hdata. unfold make_bytes. rewrite skipn_zeros.
  destruct (Nat.le_ge_cases (Z.to_nat length) (List.length avail)) as [Hle | Hge].
  - rewrite Nat.min_l by exact Hle. do 2 f_equal. lia.
  - rewrite Nat.min_r by exact Hge.
    rewrite firstn_all, (@firstn_all2 _ (Z.to_nat length) avail Hge).
    reflexivity.
Qed.

Lemma read_loop_buffer_witness :
  0 <= 4 /\
  (3 = Z.of_nat (Nat.min (Z.to_nat 4) 3) /\
   [x01; x02; x03; x00] = firstn (Z.to_nat 4) [x01; x02; x03] ++
                          repeat x00 (Z.to_nat 4 - 3) /\
   ((Z.to_nat 4 <= 3)%nat -> @nil byte = skipn (Z.to_nat 4) [x01; x02; x03])).
Proof.
  assert (H0 : 0 <= 4) by lia.
  split; [exact H0 |].
  exact (read_loop_buffer 4 9 4
           (demo_conn [(1%nat, Recv x01 [x02]); (1%nat, Recv x03 []);
                       (1%nat, Err io_EOF)])
           (mkConn 3 [] [] [] false) [x01; x02; x03; x00] 3 H0 eq_refl).
Defined.

(** ** Failures during the payload read *)

(** Segments too few to fill the buffer, the last of which ends at or
    after the timer's instant. *)
Lemma readLoop_slow (segs : list segment) :
  forall (fuel timeout : nat) (length : Z) (data : list byte) (totalRead : Z)
         (c : conn) (rest : list (nat * event)),
    incoming c = map seg_event segs ++ rest ->
    0 <= totalRead -> List.length data = Z.to_nat length ->
    totalRead + Z.of_nat (List.length (segs_bytes segs)) < length ->
    (timeout <= now c + segs_wait segs)%nat ->
    (List.length segs < fuel)%nat ->
    exists c1,
      readLoop fuel timeout length data totalRead c =
        Returned (LoopReturn (SCAN_PROTOCOL_ERROR, None, Some errReadTimeout), c1) /\
      (timeout <= now c1)%nat.
Proof.
  induction segs as [| sg segs IH];
    intros fuel timeout length data totalRead c rest Hinc Ht Hd Hfit Hnow Hfuel;
    (destruct fuel as [| fuel]; [cbn in Hfuel; lia |]).
  - change (segs_bytes []) with (@nil byte) in *.
    change (segs_wait []) with 0%nat in *. cbn [List.length] in *.
    exists c. split; [apply readLoop_timeout; lia | lia].
  - destruct (Nat.le_gt_cases timeout (now c)) as [Hle | Hgt].
    { exists c. split; [apply readLoop_timeout |]; lia. }
    cbn [map app] in Hinc.
    change (segs_bytes (sg :: segs)) with (seg_bytes sg ++ segs_bytes segs)
      in Hfit.
    change (segs_wait (sg :: segs)) with (fst sg + segs_wait segs)%nat in Hnow.
    rewrite length_app in Hfit. cbn [List.length] in Hfuel.
    rewrite (readLoop_segment _ _ _ _ _ _ _ _ Hinc) by lia.
    apply (IH fuel timeout length _ _ _ rest); cbn [now incoming];
      try reflexivity; try lia.
    rewrite store_at_length; lia.
Qed.

(** Segments too few to fill the buffer, then a read error that is not the
    end of the stream. *)
Lemma readLoop_broken (segs : list segment) :
  forall (fuel timeout : nat) (length : Z) (data : list byte) (totalRead : Z)
         (c : conn) (w : nat) (e : error) (rest : list (nat * event)),
    incoming c = map seg_event segs ++ (w, Err e) :: rest ->
    is_EOF e = false ->
    0 <= totalRead -> List.length data = Z.to_nat length ->
    totalRead + Z.of_nat (List.length (segs_bytes segs)) < length ->
    (now c + segs_wait segs < timeout)%nat ->
    (List.length segs < fuel)%nat ->
    readLoop fuel timeout length data totalRead c =
      Returned (LoopReturn (TryGetScanStatus e, None, Some e),
                mkConn (now c + segs_wait segs + w) rest
                  (wresults c) (sent c) (closed c)).
Proof.
  induction segs as [| sg segs IH];
    intros fuel timeout length data totalRead c w e rest
           Hinc He Ht Hd Hfit Hnow Hfuel;
    (destruct fuel as [| fuel]; [cbn in Hfuel; lia |]).
  - cbn [map app] in Hinc.
    change (segs_bytes []) with (@nil byte) in *.
    change (segs_wait []) with 0%nat in *. cbn [List.length] in *.
    cbn [readLoop].
    destruct (Z.ltb_spec totalRead length) as [_ | Hge]; [| lia].
    destruct (Nat.leb_spec timeout (now c)) as [Hle | _]; [lia |].
    unfold Read. rewrite Hinc. cbn [obind]. rewrite He, Nat.add_0_r.
    reflexivity.
  - cbn [map app] in Hinc.
    change (segs_bytes (sg :: segs)) with (seg_bytes sg ++ segs_bytes segs)
      in Hfit.
    change (segs_wait (sg :: segs)) with (fst sg + segs_wait segs)%nat
      in Hnow |- *.
    rewrite length_app in Hfit. cbn [List.length] in Hfuel.
    rewrite (readLoop_segment _ _ _ _ _ _ _ _ Hinc) by lia.
    rewrite (IH fuel timeout length _ _ _ w e rest); cbn [now incoming];
      try reflexivity; try assumption; try lia.
    + cbn [wresults sent closed]. do 3 f_equal. lia.
    + rewrite store_at_length; lia.
Qed.

(** X5. A peer that trickles: when the segments it sends are too few to
    fill the buffer and the last of them arrives five seconds or more after
    the read phase began, the phase, in either round, ends with the read
    timeout error under the protocol error status and a [nil] result, at
    an instant that is not before the deadline; the bytes read are dropped. *)
Theorem slow_peer_times_out (s : Scanner) (data : list byte) (length : Z)
    (c : conn) (segs : list segment) (rest : list (nat * event)) :
  incoming c = map seg_event segs ++ rest ->
  Z.of_nat (List.length (segs_bytes segs)) < length ->
  (5 * Second <= segs_wait segs)%nat ->
  exists c1,
    Scan_round1_read s length c =
      Returned ((SCAN_PROTOCOL_ERROR, None, Some errReadTimeout), c1) /\
    Scan_round2_read data length c =
      Returned ((SCAN_PROTOCOL_ERROR, None, Some errReadTimeout), c1) /\
    (now c + 5 * Second <= now c1)%nat.
Proof.
  intros Hinc Hfit Hwait. pose proof (segs_length segs) as Hsl.
  destruct (readLoop_slow segs (Z.to_nat length) (time_After c (5 * Second))
              length (make_bytes length) 0 c rest Hinc)
    as (c1 & HL & Hnow);
    try (unfold time_After; lia); [apply make_bytes_length |].
  exists c1. unfold Scan_round1_read, Scan_round2_read. rewrite HL.
  repeat split; exact Hnow.
Qed.

Lemma slow_peer_times_out_witness :
  Z.of_nat (List.length [x01; x02]) < 9 /\
  (5 * Second <= 2 * Second + 3 * Second)%nat /\
  exists c1,
    Scan_round2_read [x00] 9
      (demo_conn [((2 * Second)%nat, Recv x01 []);
                  ((3 * Second)%nat, Recv x02 [])]) =
      Returned ((SCAN_PROTOCOL_ERROR, None, Some errReadTimeout), c1).
Proof.
  assert (H1 : Z.of_nat (List.length [x01; x02]) < 9) by (cbn; lia).
  assert (H2 : (5 * Second <= 2 * Second + 3 * Second)%nat)
    by (unfold Second; lia).
  split; [exact H1 |]. split; [exact H2 |].
  destruct (slow_peer_times_out demo_scanner [x00] 9
              (demo_conn [((2 * Second)%nat, Recv x01 []);
                          ((3 * Second)%nat, Recv x02 [])])
              [((2 * Second)%nat, (x01, [])); ((3 * Second)%nat, (x02, []))] []
              eq_refl H1)
    as (c1 & _ & H & _).
  - cbn [segs_wait map fst list_sum fold_right]. unfold Second. lia.
  - exists c1. exact H.
Defined.

(** X6. A read error other than the end of the stream, met before the
    deadline while the buffer is not full, ends the scan in either round
    with that very error, the status the framework's helper gives it and a
    [nil] result; the bytes read before it are dropped. *)
Theorem read_error_aborts (s : Scanner) (data : list byte) (length : Z)
    (c : conn) (segs : list segment) (w : nat) (e : error)
    (rest : list (nat * event)) :
  incoming c = map seg_event segs ++ (w, Err e) :: rest ->
  is_EOF e = false ->
  Z.of_nat (List.length (segs_bytes segs)) < length ->
  (segs_wait segs < 5 * Second)%nat ->
  let c1 := mkConn (now c + segs_wait segs + w) rest
              (wresults c) (sent c) (closed c) in
  Scan_round1_read s length c =
    Returned ((TryGetScanStatus e, None, Some e), c1) /\
  Scan_round2_read data length c =
    Returned ((TryGetScanStatus e, None, Some e), c1).
Proof.
  intros Hinc He Hfit Hwait c1. pose proof (segs_length segs) as Hsl.
  assert (HL : readLoop (Z.to_nat length) (time_After c (5 * Second)) length
                 (make_bytes length) 0 c =
               Returned (LoopReturn (TryGetScanStatus e, None, Some e), c1)).
  { apply readLoop_broken; try assumption;
      try (unfold time_After; lia). apply make_bytes_length. }
  unfold Scan_round1_read, Scan_round2_read. rewrite HL. split; reflexivity.
Qed.

Lemma read_error_aborts_witness :
  is_EOF (netError true "i/o timeout") = false /\
  Z.of_nat (List.length [x01; x02]) < 9 /\
  (1 < 5 * Second)%nat /\
  Scan_round2_read [x00] 9
    (demo_conn [(1%nat, Recv x01 [x02]);
                (10 * Second, Err (netError true "i/o timeout"))%nat]) =
    Returned ((SCAN_IO_TIMEOUT, None, Some (netError true "i/o timeout")),
              mkConn (1 + 10 * Second) [] [] [] false).
Proof.
  assert (H1 : Z.of_nat (List.length [x01; x02]) < 9) by (cbn; lia).
  assert (H2 : (1 < 5 * Second)%nat) by (unfold Second; lia).
  split; [reflexivity |]. split; [exact H1 |]. split; [exact H2 |].
  exact (proj2 (read_error_aborts demo_scanner [x00] 9
           (demo_conn [(1%nat, Recv x01 [x02]);
                       (10 * Second, Err (netError true "i/o timeout"))%nat])
           [(1%nat, (x01, [x02]))] (10 * Second)%nat
           (netError true "i/o timeout") [] eq_refl eq_refl H1 H2)).
Defined.

(** ** What a scan does to the connection *)

Lemma Scan_round2_read_frame (data : list byte) (length : Z) (c c' : conn)
    (r : scan_return) :
  0 <= length ->
  Scan_round2_read data length c = Returned (r, c') ->
  sent c' = sent c /\ (now c <= now c')%nat /\
  (bytes_in (incoming c') <= bytes_in (incoming c) <=
   bytes_in (incoming c') + Z.to_nat length)%nat /\
  (r = timed_out -> (now c + 5 * Second <= now c')%nat).
Proof.
  unfold Scan_round2_read. intros Hl H.
  destruct (readLoop _ _ _ _ _ _) as [[ex c1] | |] eqn:HL;
    cbn [obind] in H; try discriminate.
  apply readLoop_frame in HL as (Hs & _ & _ & Hn & Hb & Hb' & Hex);
    [| apply make_bytes_length | lia].
  rewrite Z.sub_0_r in Hb.
  destruct ex as [data2 tr | r']; injection H as <- <-;
    (repeat split; auto; try lia; []); intros Hr.
  - discriminate Hr.
  - destruct Hex as [[_ Hto] | (e & -> & _)].
    + exact Hto.
    + injection Hr as Hst He. subst e. discriminate Hst.
Qed.

Lemma Scan_round2_frame (s : Scanner) (data : list byte) (c c' : conn)
    (r : scan_return) :
  Scan_round2 s data c = Returned (r, c') ->
  (sent c' = sent c \/ sent c' = sent c ++ [probe2 s]) /\
  (snd (fst r) <> None -> sent c' = sent c ++ [probe2 s]) /\
  (now c <= now c')%nat /\
  (bytes_in (incoming c') <= bytes_in (incoming c) <=
   bytes_in (incoming c') + 14)%nat /\
  (r = timed_out -> (now c + 5 * Second <= now c')%nat).
Proof.
  unfold Scan_round2. intros H.
  destruct (Write c (probe2 s)) as [[e |] c1] eqn:HW;
    apply Write_frame in HW as (Hi & Hn & _ & Hs).
  { injection H as <- <-. rewrite Hi, Hn, Hs. cbn [fst snd].
    repeat split; auto; try lia; try congruence.
    intros Hr. injection Hr as Hst He. subst e. discriminate Hst. }
  destruct (readVarInt c1) as [[[length [e |]] c2] | |] eqn:HV;
    cbn [obind] in H; try discriminate;
    apply readVarInt_loop_frame in HV as (Hs2 & _ & _ & Hn2 & k & Hk & Hb2);
    unfold maxBytes in Hk; rewrite Hi in Hb2.
  { injection H as <- <-. rewrite Hs2, Hs. cbn [fst snd].
    repeat split; auto; try lia; try congruence.
    intros Hr. injection Hr as Hst He. subst e. discriminate Hst. }
  destruct (Z.eqb_spec length 9) as [H9 | H9]; cbn [negb] in H.
  2:{ injection H as <- <-. rewrite Hs2, Hs. cbn [fst snd].
      repeat split; auto; try lia; try congruence. intros Hr. discriminate Hr. }
  subst length.
  apply Scan_round2_read_frame in H as (Hs3 & Hn3 & Hb3 & Hto); [| lia].
  rewrite Hs3, Hs2, Hs. repeat split; auto; try lia.
  intros Hr. specialize (Hto Hr). lia.
Qed.

Lemma Scan_conn_frame (s : Scanner) (c c' : conn) (r : scan_return) :
  Scan_conn s c = Returned (r, c') ->
  (sent c' = sent c \/ sent c' = sent c ++ [probe1 s] \/
   sent c' = sent c ++ [probe1 s; probe2 s]) /\
  (snd (fst r) <> None -> sent c' = sent c ++ [probe1 s; probe2 s]) /\
  (now c <= now c')%nat /\
  (bytes_in (incoming c') <= bytes_in (incoming c))%nat /\
  Z.of_nat (bytes_in (incoming c)) <=
    Z.of_nat (bytes_in (incoming c')) + 32819 /\
  (r = timed_out -> (now c + 5 * Second <= now c')%nat).
Proof.
  unfold Scan_conn. intros H.
  destruct (Write c (probe1 s)) as [[e |] c1] eqn:HW;
    apply Write_frame in HW as (Hi & Hn & _ & Hs).
  { injection H as <- <-. rewrite Hi, Hn, Hs. cbn [fst snd].
    repeat split; auto; try lia; try congruence.
    intros Hr. injection Hr as Hst He. subst e. discriminate Hst. }
  destruct (readVarInt c1) as [[[length [e |]] c2] | |] eqn:HV;
    cbn [obind] in H; try discriminate;
    apply readVarInt_loop_frame in HV as (Hs2 & _ & _ & Hn2 & k & Hk & Hb2);
    unfold maxBytes in Hk; rewrite Hi in Hb2.
  { injection H as <- <-. rewrite Hs2, Hs. cbn [fst snd].
    repeat split; auto; try lia; try congruence.
    intros Hr. injection Hr as Hst He. subst e. discriminate Hst. }
  destruct (Z.gtb_spec length 32800) as [Hgt | Hle].
  { injection H as <- <-. rewrite Hs2, Hs. cbn [fst snd].
    repeat split; auto; try lia; try congruence. intros Hr. discriminate Hr. }
  destruct (Z.ltb_spec length 1) as [Hlt | Hge].
  { injection H as <- <-. rewrite Hs2, Hs. cbn [fst snd].
    repeat split; auto; try lia; try congruence. intros Hr. discriminate Hr. }
  unfold Scan_round1_read in H.
  destruct (readLoop _ _ _ _ _ _) as [[ex c3] | |] eqn:HL;
    cbn [obind] in H; try discriminate.
  apply readLoop_frame in HL as (Hs3 & _ & _ & Hn3 & Hb3 & Hb3' & Hex);
    [| apply make_bytes_length | lia].
  rewrite Z.sub_0_r in Hb3.
  destruct ex as [data tr | r'].
  - apply Scan_round2_frame in H as (Hs4 & Hres & Hn4 & Hb4 & Hto).
    rewrite Hs3, Hs2, Hs in Hs4, Hres. rewrite <- app_assoc in Hs4, Hres.
    cbn [app] in Hs4, Hres.
    repeat split; auto; try lia.
    intros Hr. specialize (Hto Hr). lia.
  - injection H as <- <-. rewrite Hs3, Hs2, Hs.
    repeat split; auto; try lia.
    + destruct Hex as [[-> _] | (e & -> & _)]; cbn [fst snd]; congruence.
    + intros Hr. destruct Hex as [[_ Hto] | (e & -> & _)].
      * unfold time_After in Hto. lia.
      * injection Hr as Hst He. subst e. discriminate Hst.
Qed.

(** X7. A scan that returns after [Open] succeeded hands back the
    connection closed, and on it has written nothing, or the first probe, or
    the first probe and then the second, and nothing else; when it returns a
    result it has written both. *)
Theorem Scan_writes_probes (s : Scanner) (target : ScanTarget) (c : conn)
    (r : scan_return) (oc : option conn) :
  Open target = inl c ->
  Scan s target = Returned (r, oc) ->
  exists c',
    oc = Some c' /\ closed c' = true /\
    (sent c' = sent c \/ sent c' = sent c ++ [probe1 s] \/
     sent c' = sent c ++ [probe1 s; probe2 s]) /\
    (snd (fst r) <> None -> sent c' = sent c ++ [probe1 s; probe2 s]).
Proof.
  intros HO H. unfold Scan in H. rewrite HO in H.
  destruct (Scan_conn s c) as [[r' c1] | |] eqn:HS; cbn [obind] in H;
    try discriminate.
  injection H as <- <-.
  apply Scan_conn_frame in HS as (Hs & Hres & _).
  exists (Close c1). cbn [Close sent closed]. auto.
Qed.

Lemma Scan_writes_probes_witness :
  exists c',
    Some (mkConn 1 [(0%nat, Recv x41 [])] [] [[x0a]] true) = Some c' /\
    closed c' = true /\
    (sent c' = [] \/ sent c' = [] ++ [[x0a]] \/ sent c' = [] ++ [[x0a]; [x0a]]) /\
    (snd (fst (SCAN_PROTOCOL_ERROR, @None Results, Some errZeroNegative)) <> None ->
     sent c' = [] ++ [[x0a]; [x0a]]).
Proof.
  exact (Scan_writes_probes demo_scanner
           (mkTarget (inl (demo_conn [(1%nat, Recv x00 [x41])])))
           (demo_conn [(1%nat, Recv x00 [x41])])
           (SCAN_PROTOCOL_ERROR, None, Some errZeroNegative)
           (Some (mkConn 1 [(0%nat, Recv x41 [])] [] [[x0a]] true))
           eq_refl eq_refl).
Defined.

(** X8. Whatever the peer sends, a scan that returns has taken at most
    32819 bytes off the stream (two length prefixes of at most 5 bytes, at
    most 32800 bytes of the first payload and 9 of the second); what it did
    not take is still there. *)
Theorem Scan_reads_bounded (s : Scanner) (target : ScanTarget) (c c' : conn)
    (r : scan_return) :
  Open target = inl c ->
  Scan s target = Returned (r, Some c') ->
  (bytes_in (incoming c') <= bytes_in (incoming c))%nat /\
  Z.of_nat (bytes_in (incoming c)) <= Z.of_nat (bytes_in (incoming c')) + 32819.
Proof.
  intros HO H. unfold Scan in H. rewrite HO in H.
  destruct (Scan_conn s c) as [[r' c1] | |] eqn:HS; cbn [obind] in H;
    try discriminate.
  injection H as _ <-.
  apply Scan_conn_frame in HS as (_ & _ & _ & Hb & Hb' & _).
  cbn [Close incoming]. auto.
Qed.

Lemma Scan_reads_bounded_witness :
  (2 <= 16)%nat /\ Z.of_nat 16 <= Z.of_nat 2 + 32819.
Proof.
  exact (Scan_reads_bounded demo_scanner
           (mkTarget (inl (demo_conn
              [(1%nat, Recv x03 [x01; x02; x03; x09;
                                 x11; x12; x13; x14; x15; x16; x17; x18; x19;
                                 x2a; x2b])])))
           (demo_conn
              [(1%nat, Recv x03 [x01; x02; x03; x09;
                                 x11; x12; x13; x14; x15; x16; x17; x18; x19;
                                 x2a; x2b])])
           (mkConn 1 [(0%nat, Recv x2a [x2b])] [] [[x0a]; [x0a]] true)
           (success [x01; x02; x03] [x11; x12; x13; x14; x15; x16; x17; x18; x19])
           eq_refl eq_refl).
Defined.

(** X10. The read timeout error is never returned early: a scan that
    returns it under the protocol error status does so at least five
    seconds after the connection was opened. *)
Theorem read_timeout_not_early (s : Scanner) (target : ScanTarget) (c c' : conn) :
  Open target = inl c ->
  Scan s target =
    Returned ((SCAN_PROTOCOL_ERROR, None, Some errReadTimeout), Some c') ->
  (now c + 5 * Second <= now c')%nat.
Proof.
  intros HO H. unfold Scan in H. rewrite HO in H.
  destruct (Scan_conn s c) as [[r' c1] | |] eqn:HS; cbn [obind] in H;
    try discriminate.
  injection H as -> <-.
  apply Scan_conn_frame in HS as (_ & _ & _ & _ & _ & Hto).
  cbn [Close now]. apply Hto. reflexivity.
Qed.

Lemma read_timeout_not_early_witness :
  (0 + 5 * Second <= 5 * Second)%nat.
Proof.
  exact (read_timeout_not_early demo_scanner
           (mkTarget (inl (demo_conn trickle))) (demo_conn trickle)
           (mkConn (5 * Second) [] [] [[x0a]] true) eq_refl eq_refl).
Defined.

(** ** The banners of a successful scan *)

Lemma round_ok_length (probe : list byte) (check : Z -> bool) (c c' : conn)
    (data : list byte) :
  round_ok probe check c data c' ->
  exists length, check length = true /\ 0 <= length /\
                 List.length data = Z.to_nat length.
Proof.
  intros (c1 & length & c2 & tr & _ & HV & Hc & HL).
  exists length. split; [exact Hc |].
  assert (H0 : 0 <= length).
  { apply (readVarInt_loop_range maxBytes 0 0 length c1 c2);
      unfold maxBytes; try lia; exact HV. }
  split; [exact H0 |].
  exact (readLoop_exit _ _ _ _ _ _ _ _ (make_bytes_length length)
           (Z.le_refl 0) HL).
Qed.

(** X9. The banners of a successful scan are never empty: [Banner1] has
    twice as many characters as the length round 1 decoded, so between 2 and
    65600, and [Banner2] has exactly 18; the serialized record therefore
    carries both members. *)
Theorem success_banner_lengths (s : Scanner) (target : ScanTarget)
    (st : ScanStatus) (res : Results) (err : option error) (oc : option conn) :
  Scan s target = Returned ((st, Some res, err), oc) ->
  2 <= Z.of_nat (String.length (Banner1 res)) <= 65600 /\
  String.length (Banner2 res) = 18%nat /\
  map fst (Results_json res) = ["banner1"; "banner2"]%string.
Proof.
  intros H.
  apply Scan_inv in H as [(st' & e & Heq & _) | (data & data2 & Hok & Heq)];
    [discriminate Heq |].
  injection Heq as _ -> _.
  destruct Hok as (c & cm & c' & _ & H1 & H2).
  apply round_ok_length in H1 as (L1 & Hc1 & _ & Hd1).
  apply round_ok_length in H2 as (L2 & Hc2 & _ & Hd2).
  unfold check1 in Hc1. apply andb_prop in Hc1 as [Hlo Hhi].
  apply Z.leb_le in Hlo, Hhi. unfold check2 in Hc2. apply Z.eqb_eq in Hc2.
  subst L2.
  pose proof (proj2 (EncodeToString_lower data)) as Hl1.
  pose proof (proj2 (EncodeToString_lower data2)) as Hl2.
  cbn [Banner1 Banner2]. rewrite Hl1, Hl2, Hd1, Hd2.
  split; [lia |]. split; [reflexivity |].
  unfold Results_json. cbn [Banner1 Banner2].
  destruct (EncodeToString data) as [| a1 t1] eqn:E1;
    [cbn [String.length] in Hl1; lia |].
  destruct (EncodeToString data2) as [| a2 t2] eqn:E2;
    [cbn [String.length] in Hl2; rewrite Hd2 in Hl2; discriminate Hl2 |].
  reflexivity.
Qed.

Lemma success_banner_lengths_witness :
  2 <= Z.of_nat (String.length "0102030405") <= 65600 /\
  String.length "111213141516171819" = 18%nat /\
  map fst (Results_json (mkResults "0102030405" "111213141516171819")) =
    ["banner1"; "banner2"]%string.
Proof.
  exact (success_banner_lengths demo_scanner
           (mkTarget (inl (demo_conn two_answers))) SCAN_SUCCESS
           (mkResults "0102030405" "111213141516171819") None
           (Some (mkConn 7 [] [] [[x0a]; [x0a]] true)) eq_refl).
Defined.
